(** * Task-dependency scheduler of the resource allocation backend

    A shallow embedding of the algorithmic core of [backend/main.py]
    ([has_cycle], [topological_sort], [allocate_resources]) and of the two
    endpoints that drive it ([create_dependency], [auto_allocate]), followed
    by the properties of the specification that concern them.

    Modelling conventions.
    - Python integers are [Z]; strings are [string]; a Python [set] of ids is
      a [gset Z]; a Python [dict] keyed by ids is a [PyDict.t]: a [gmap]
      together with the list of its keys in insertion order, which is the
      order Python iterates a dict in.
    - A call either returns, raises, or exhausts the fuel of the model
      ([outcome]).  Fuel only bounds the recursion of [dfs] and the [while]
      loop of Kahn's algorithm; both bounds are computed from the size of the
      graph and proved sufficient, so [OutOfFuel] is never observed.  The
      interpreter's own recursion limit is not modelled.
    - The SQLAlchemy session is a committed [Store.t] plus the objects added
      with [db.add] and not yet flushed.  The session is created with
      [autoflush=False], so queries read the committed store only.  Rows are
      returned in table order.
    - [datetime] values are microseconds since [datetime.min]. *)

From stdpp Require Import base numbers list sets gmap strings relations.

Local Open Scope Z_scope.

(** ** Exceptions and outcomes *)

Inductive exn : Type :=
| KeyError (key : Z)
| IndexError
| OverflowError
| HTTPException (status_code : Z) (detail : string).

Inductive outcome (A : Type) : Type :=
| Return (a : A)
| Raise (e : exn)
| OutOfFuel.

Arguments Return {A} a.
Arguments Raise {A} e.
Arguments OutOfFuel {A}.

#[global] Instance outcome_ret : MRet outcome := @Return.

#[global] Instance outcome_bind : MBind outcome := λ A B f m,
  match m with
  | Return a => f a
  | Raise e => Raise e
  | OutOfFuel => OutOfFuel
  end.

(** [for x in l: acc = f acc x], stopping at the first exception. *)
Fixpoint for_each {A B : Type} (f : B → A → outcome B) (acc : B) (l : list A)
  : outcome B :=
  match l with
  | [] => Return acc
  | x :: l' => acc' ← f acc x; for_each f acc' l'
  end.

(** [[f x for x in l]] where [f] may raise. *)
Fixpoint map_each {A B : Type} (f : A → outcome B) (l : list A)
  : outcome (list B) :=
  match l with
  | [] => Return []
  | x :: l' => y ← f x; ys ← map_each f l'; Return (y :: ys)
  end.

(** [[x for x in l if p x]] where [p] may raise. *)
Fixpoint filter_each {A : Type} (p : A → outcome bool) (l : list A)
  : outcome (list A) :=
  match l with
  | [] => Return []
  | x :: l' =>
      b ← p x; xs ← filter_each p l'; Return (if b : bool then x :: xs else xs)
  end.

(** ** Python dictionaries keyed by integer ids *)

Module PyDict.

Record t (V : Type) : Type := mk { items : gmap Z V; keys : list Z }.
Arguments mk {V} items keys.
Arguments items {V} _.
Arguments keys {V} _.

Definition empty {V : Type} : t V := mk ∅ [].

(** [d[k] = v]: a new key goes to the end of the iteration order, an
    existing key keeps its place. *)
Definition setitem {V : Type} (k : Z) (v : V) (d : t V) : t V :=
  mk (<[k := v]> (items d))
     (match items d !! k with
      | Some _ => keys d
      | None => keys d ++ [k]
      end).

(** [d[k]]: raises [KeyError] on a missing key. *)
Definition getitem {V : Type} (k : Z) (d : t V) : outcome V :=
  match items d !! k with
  | Some v => Return v
  | None => Raise (KeyError k)
  end.

(** [d.get(k, dflt)]. *)
Definition get {V : Type} (k : Z) (dflt : V) (d : t V) : V :=
  default dflt (items d !! k).

(** [{key x: value x for x in l}]. *)
Definition comprehension {A V : Type} (key : A → Z) (value : A → V)
    (l : list A) : t V :=
  foldl (λ d x, setitem (key x) (value x) d) empty l.

End PyDict.

(** ** Time *)

(** Exclusive upper bound of [datetime]: 3652059 days after [datetime.min]. *)
Definition datetime_end : Z := 3652059 * 86400000000.

(** A number of minutes, in microseconds. *)
Definition minutes (m : Z) : Z := m * 60000000.

(** [timedelta(minutes=m)]; the day count of a [timedelta] has magnitude at
    most 999999999. *)
Definition timedelta_minutes (m : Z) : outcome Z :=
  if decide (-999999999 ≤ m `div` 1440 ≤ 999999999)
  then Return (minutes m)
  else Raise OverflowError.

(** [t + d] for a [datetime] [t] and a [timedelta] [d]. *)
Definition datetime_add (t d : Z) : outcome Z :=
  if decide (0 ≤ t + d < datetime_end)
  then Return (t + d)
  else Raise OverflowError.

(** ** Database rows

    Only the columns that the modelled code reads or writes are kept.  The
    surrogate key of a row is [None] until the row is flushed. *)

Inductive ResourceType : Type := EMPLOYEE | EQUIPMENT.

#[global] Instance ResourceType_eq_dec : EqDecision ResourceType.
Proof. solve_decision. Defined.

Module Project.
Record t : Type := mk { id : Z }.
End Project.

Module Task.
Record t : Type := mk {
  id : Z;
  project_id : Z;
  estimated_duration : Z;
  priority : Z;
  required_skills : list string
}.
End Task.

Module TaskDependency.
Record t : Type := mk {
  id : option Z;
  predecessor_task_id : Z;
  successor_task_id : Z
}.
Definition with_id (i : Z) (d : t) : t :=
  mk (Some i) (predecessor_task_id d) (successor_task_id d).
End TaskDependency.

Module Resource.
Record t : Type := mk {
  id : Z;
  type : ResourceType;
  skills : list string;
  available : bool
}.
End Resource.

Module TaskAllocation.
Record t : Type := mk {
  id : option Z;
  task_id : Z;
  resource_id : Z;
  scheduled_start : Z;
  scheduled_end : Z
}.
Definition with_id (i : Z) (a : t) : t :=
  mk (Some i) (task_id a) (resource_id a) (scheduled_start a)
     (scheduled_end a).
End TaskAllocation.

(** ** Store and session *)

Module Store.
Record t : Type := mk {
  projects : list Project.t;
  tasks : list Task.t;
  task_dependencies : list TaskDependency.t;
  resources : list Resource.t;
  task_allocations : list TaskAllocation.t
}.
End Store.

(** The integer primary key given to a new row: one more than the largest
    key in the table. *)
Definition next_id (ids : list (option Z)) : Z :=
  1 + foldr (λ i m, Z.max (default 0 i) m) 0 ids.

(** INSERT the new rows one after the other; returns the table and the rows
    as stored (with their keys). *)
Fixpoint insert_dependencies (table new : list TaskDependency.t)
  : list TaskDependency.t * list TaskDependency.t :=
  match new with
  | [] => (table, [])
  | d :: new' =>
      let row := TaskDependency.with_id (next_id (TaskDependency.id <$> table)) d in
      let '(table', rows) := insert_dependencies (table ++ [row]) new' in
      (table', row :: rows)
  end.

Fixpoint insert_allocations (table new : list TaskAllocation.t)
  : list TaskAllocation.t * list TaskAllocation.t :=
  match new with
  | [] => (table, [])
  | a :: new' =>
      let row := TaskAllocation.with_id (next_id (TaskAllocation.id <$> table)) a in
      let '(table', rows) := insert_allocations (table ++ [row]) new' in
      (table', row :: rows)
  end.

Module Session.
Record t : Type := mk {
  store : Store.t;
  new_dependencies : list TaskDependency.t;
  new_allocations : list TaskAllocation.t
}.

(** A fresh session on a store, as [get_db] yields it. *)
Definition open (s : Store.t) : t := mk s [] [].

(** [db.add(dep)] *)
Definition add_dependency (d : TaskDependency.t) (db : t) : t :=
  mk (store db) (new_dependencies db ++ [d]) (new_allocations db).

(** [db.add(allocation)] *)
Definition add_allocation (a : TaskAllocation.t) (db : t) : t :=
  mk (store db) (new_dependencies db) (new_allocations db ++ [a]).

(** [db.commit()]: flushes the added objects and commits.  Also returns
    the flushed objects, which now carry their keys. *)
Definition commit (db : t)
  : t * (list TaskDependency.t * list TaskAllocation.t) :=
  let s := store db in
  let '(deps, new_deps) :=
    insert_dependencies (Store.task_dependencies s) (new_dependencies db) in
  let '(allocs, new_allocs) :=
    insert_allocations (Store.task_allocations s) (new_allocations db) in
  (mk (Store.mk (Store.projects s) (Store.tasks s) deps
                (Store.resources s) allocs) [] [],
   (new_deps, new_allocs)).

(** [db.rollback()]: drops what was added since the last commit. *)
Definition rollback (db : t) : t := mk (store db) [] [].
End Session.

(** ** Queries *)

(** [db.query(Project).filter(Project.id == project_id).first()] *)
Definition query_project (db : Session.t) (project_id : Z) : option Project.t :=
  head (filter (λ p, Project.id p = project_id)
               (Store.projects (Session.store db))).

(** [db.query(Task).filter(Task.id == task_id).first()] *)
Definition query_task (db : Session.t) (task_id : Z) : option Task.t :=
  head (filter (λ t, Task.id t = task_id) (Store.tasks (Session.store db))).

(** [db.query(Task).filter(Task.project_id == project_id).all()] *)
Definition query_tasks (db : Session.t) (project_id : Z) : list Task.t :=
  filter (λ t, Task.project_id t = project_id)
         (Store.tasks (Session.store db)).

(** [db.query(TaskDependency)
       .join(Task, TaskDependency.predecessor_task_id == Task.id)
       .filter(Task.project_id == project_id).all()] *)
Definition query_dependencies (db : Session.t) (project_id : Z)
  : list TaskDependency.t :=
  d ← Store.task_dependencies (Session.store db);
  t ← Store.tasks (Session.store db);
  if decide (TaskDependency.predecessor_task_id d = Task.id t
             ∧ Task.project_id t = project_id)
  then [d] else [].

(** [db.query(Resource).filter(Resource.available == True).all()] *)
Definition query_available_resources (db : Session.t) : list Resource.t :=
  filter (λ r, Resource.available r = true)
         (Store.resources (Session.store db)).

(** ** Cycle detection ([has_cycle]) *)

(** [graph = {task.id: [] for task in tasks}] followed by
    [graph[dep.predecessor_task_id].append(dep.successor_task_id)] for every
    dependency. *)
Definition build_graph (tasks : list Task.t)
    (dependencies : list TaskDependency.t) : outcome (PyDict.t (list Z)) :=
  for_each
    (λ graph dep,
       succs ← PyDict.getitem (TaskDependency.predecessor_task_id dep) graph;
       mret (PyDict.setitem (TaskDependency.predecessor_task_id dep)
                            (succs ++ [TaskDependency.successor_task_id dep])
                            graph))
    (PyDict.comprehension Task.id (λ _, []) tasks)
    dependencies.

(** The two sets shared by all the calls of [dfs]. *)
Record dfs_state : Type := DfsState { visited : gset Z; rec_stack : gset Z }.

(** The [for neighbor in graph.get(node, [])] loop of [dfs]; [rec] is the
    recursive call.  The boolean tells whether the loop left through
    [return True]. *)
Fixpoint dfs_neighbors (rec : Z → dfs_state → outcome (bool * dfs_state))
    (neighbors : list Z) (s : dfs_state) : outcome (bool * dfs_state) :=
  match neighbors with
  | [] => mret (false, s)
  | neighbor :: neighbors' =>
      if decide (neighbor ∉ visited s) then
        '(found, s') ← rec neighbor s;
        if found : bool then mret (true, s')
        else dfs_neighbors rec neighbors' s'
      else if decide (neighbor ∈ rec_stack s) then mret (true, s)
      else dfs_neighbors rec neighbors' s
  end.

(** [dfs(node)]; [rec_stack.remove(node)] raises [KeyError] when [node] is
    not in the set. *)
Fixpoint dfs (fuel : nat) (graph : PyDict.t (list Z)) (node : Z)
    (s : dfs_state) : outcome (bool * dfs_state) :=
  match fuel with
  | O => OutOfFuel
  | S fuel' =>
      let s1 := DfsState (visited s ∪ {[node]}) (rec_stack s ∪ {[node]}) in
      '(found, s2) ← dfs_neighbors (dfs fuel' graph) (PyDict.get node [] graph) s1;
      if found : bool then mret (true, s2)
      else if decide (node ∈ rec_stack s2)
           then mret (false, DfsState (visited s2) (rec_stack s2 ∖ {[node]}))
           else Raise (KeyError node)
  end.

(** The [for task_id in graph] loop of [has_cycle]. *)
Fixpoint has_cycle_from (fuel : nat) (graph : PyDict.t (list Z))
    (task_ids : list Z) (s : dfs_state) : outcome bool :=
  match task_ids with
  | [] => mret false
  | task_id :: task_ids' =>
      if decide (task_id ∉ visited s) then
        '(found, s') ← dfs fuel graph task_id s;
        if found : bool then mret true
        else has_cycle_from fuel graph task_ids' s'
      else has_cycle_from fuel graph task_ids' s
  end.

Definition has_cycle (db : Session.t) (project_id : Z) : outcome bool :=
  let tasks := query_tasks db project_id in
  let dependencies := query_dependencies db project_id in
  graph ← build_graph tasks dependencies;
  has_cycle_from (length tasks + length dependencies) graph
                 (PyDict.keys graph) (DfsState ∅ ∅).

(** ** Priority-aware topological order ([topological_sort]) *)

(** Stable insertion sort on (key, value) pairs; [list.sort] is stable and
    computes every key before it compares any. *)
Fixpoint insert_by_key (x : Z * Z) (l : list (Z * Z)) : list (Z * Z) :=
  match l with
  | [] => [x]
  | y :: l' =>
      if decide (x.1 ≤ y.1) then x :: y :: l' else y :: insert_by_key x l'
  end.

Definition stable_sort (l : list (Z * Z)) : list (Z * Z) :=
  foldr insert_by_key [] l.

(** [l.sort(key=key)] *)
Definition sort_by (key : Z → outcome Z) (l : list Z) : outcome (list Z) :=
  keyed ← map_each (λ x, k ← key x; mret (k, x)) l;
  mret ((stable_sort keyed).*2).

Record kahn_state : Type := KahnState {
  in_degree : PyDict.t Z;
  queue : list Z;
  sorted_tasks : list Task.t
}.

(** One dependency of the set-up loop:
    [graph[pred].append(succ); in_degree[succ] += 1]. *)
Definition count_dependency (acc : PyDict.t (list Z) * PyDict.t Z)
    (dep : TaskDependency.t) : outcome (PyDict.t (list Z) * PyDict.t Z) :=
  let pred := TaskDependency.predecessor_task_id dep in
  let succ := TaskDependency.successor_task_id dep in
  succs ← PyDict.getitem pred acc.1;
  let graph := PyDict.setitem pred (succs ++ [succ]) acc.1 in
  n ← PyDict.getitem succ acc.2;
  mret (graph, PyDict.setitem succ (n + 1) acc.2).

(** One neighbor of the inner loop:
    [in_degree[neighbor] -= 1; if in_degree[neighbor] == 0: queue.append(neighbor)]. *)
Definition release_neighbor (acc : PyDict.t Z * list Z) (neighbor : Z)
  : outcome (PyDict.t Z * list Z) :=
  n ← PyDict.getitem neighbor acc.1;
  let in_degree := PyDict.setitem neighbor (n - 1) acc.1 in
  n' ← PyDict.getitem neighbor in_degree;
  mret (in_degree, if decide (n' = 0) then acc.2 ++ [neighbor] else acc.2).

(** The body of the [while queue] loop; [queue.pop(0)] raises [IndexError]
    on an empty list. *)
Definition kahn_step (task_map : PyDict.t Task.t) (graph : PyDict.t (list Z))
    (st : kahn_state) : outcome kahn_state :=
  sorted_queue ←
    sort_by (λ tid, task ← PyDict.getitem tid task_map;
                    mret (- Task.priority task)) (queue st);
  match sorted_queue with
  | [] => Raise IndexError
  | current :: rest =>
      task ← PyDict.getitem current task_map;
      neighbors ← PyDict.getitem current graph;
      '(in_degree', queue') ←
        for_each release_neighbor (in_degree st, rest) neighbors;
      mret (KahnState in_degree' queue' (sorted_tasks st ++ [task]))
  end.

Fixpoint kahn_loop (fuel : nat) (task_map : PyDict.t Task.t)
    (graph : PyDict.t (list Z)) (st : kahn_state) : outcome (list Task.t) :=
  match queue st with
  | [] => mret (sorted_tasks st)
  | _ :: _ =>
      match fuel with
      | O => OutOfFuel
      | S fuel' =>
          st' ← kahn_step task_map graph st;
          kahn_loop fuel' task_map graph st'
      end
  end.

(** The state in which the [while] loop is entered. *)
Definition kahn_init (tasks : list Task.t)
    (dependencies : list TaskDependency.t)
  : outcome (PyDict.t (list Z) * kahn_state) :=
  '(graph, in_degree) ←
    for_each count_dependency
      (PyDict.comprehension Task.id (λ _, []) tasks,
       PyDict.comprehension Task.id (λ _, 0) tasks)
      dependencies;
  queue ←
    filter_each (λ tid, n ← PyDict.getitem tid in_degree;
                        mret (bool_decide (n = 0)))
                (PyDict.keys in_degree);
  mret (graph, KahnState in_degree queue []).

Definition topological_sort (db : Session.t) (project_id : Z)
  : outcome (list Task.t) :=
  let tasks := query_tasks db project_id in
  let dependencies := query_dependencies db project_id in
  let task_map := PyDict.comprehension Task.id (λ task, task) tasks in
  '(graph, st) ← kahn_init tasks dependencies;
  kahn_loop (length (PyDict.keys (in_degree st))) task_map graph st.

(** ** Greedy allocation ([allocate_resources]) *)

(** [all(skill in resource.skills for skill in task.required_skills)] *)
Definition skills_match (resource : Resource.t) (task : Task.t) : bool :=
  forallb (λ skill, bool_decide (skill ∈ Resource.skills resource))
          (Task.required_skills task).

(** The [for resource in resources] loop with its [break]. *)
Fixpoint find_matching_employee (resources : list Resource.t) (task : Task.t)
  : option Resource.t :=
  match resources with
  | [] => None
  | resource :: resources' =>
      if decide (Resource.type resource = EMPLOYEE) then
        if skills_match resource task then Some resource
        else find_matching_employee resources' task
      else find_matching_employee resources' task
  end.

(** [best_resource] after the fallback [resources[0]]. *)
Definition choose_resource (resources : list Resource.t) (task : Task.t)
  : outcome Resource.t :=
  match find_matching_employee resources task with
  | Some resource => mret resource
  | None =>
      match resources with
      | resource :: _ => mret resource
      | [] => Raise IndexError
      end
  end.

Record alloc_state : Type := AllocState {
  current_time : Z;
  allocations : list TaskAllocation.t;
  session : Session.t
}.

(** The body of the [for task in sorted_tasks] loop. *)
Definition allocate_task (resources : list Resource.t) (st : alloc_state)
    (task : Task.t) : outcome alloc_state :=
  best_resource ← choose_resource resources task;
  let scheduled_start := current_time st in
  delta ← timedelta_minutes (Task.estimated_duration task);
  scheduled_end ← datetime_add (current_time st) delta;
  let allocation :=
    TaskAllocation.mk None (Task.id task) (Resource.id best_resource)
                      scheduled_start scheduled_end in
  mret (AllocState scheduled_end (allocations st ++ [allocation])
                   (Session.add_allocation allocation (session st))).

(** [utcnow] is the value of [datetime.utcnow()] read by the call.  The
    returned allocations are the objects of the loop as the flush of the
    final commit left them, that is with their keys. *)
Definition allocate_resources (db : Session.t) (project_id : Z) (utcnow : Z)
  : outcome (list TaskAllocation.t * Session.t) :=
  sorted ← topological_sort db project_id;
  let resources := query_available_resources db in
  match resources with
  | [] => Raise (HTTPException 400 "No available resources")
  | _ :: _ =>
      st ← for_each (allocate_task resources) (AllocState utcnow [] db) sorted;
      let '(db', (_, rows)) := Session.commit (session st) in
      mret (drop (length (Session.new_allocations db)) rows, db')
  end.

(** ** Endpoints

    An endpoint runs in a session of its own opened on the store and leaves
    the store as committed; what was added and not committed is lost when the
    session closes.  Authentication is taken to have succeeded. *)

Record DependencyCreate : Type := {
  predecessor_task_id : Z;
  successor_task_id : Z
}.

(** POST /api/tasks/dependencies; returns the stored dependency, whose key
    the response carries. *)
Definition create_dependency (dependency : DependencyCreate) (s : Store.t)
  : outcome TaskDependency.t * Store.t :=
  let db := Session.open s in
  match query_task db (predecessor_task_id dependency),
        query_task db (successor_task_id dependency) with
  | Some pred_task, Some succ_task =>
      if decide (Task.project_id pred_task ≠ Task.project_id succ_task) then
        (Raise (HTTPException 400 "Tasks must be in the same project"), s)
      else
        let new_dep :=
          TaskDependency.mk None (predecessor_task_id dependency)
                            (successor_task_id dependency) in
        let db := Session.add_dependency new_dep db in
        let '(db, (rows, _)) := Session.commit db in
        match has_cycle db (Task.project_id pred_task) with
        | Return true =>
            let db := Session.rollback db in
            (Raise (HTTPException 400 "This dependency creates a cycle"),
             Session.store db)
        | Return false =>
            let '(db, _) := Session.commit db in
            (Return (default new_dep (last rows)), Session.store db)
        | Raise e => (Raise e, Session.store db)
        | OutOfFuel => (OutOfFuel, Session.store db)
        end
  | _, _ => (Raise (HTTPException 404 "One or both tasks not found"), s)
  end.

(** POST /api/projects/{project_id}/allocate *)
Definition auto_allocate (project_id : Z) (utcnow : Z) (s : Store.t)
  : outcome (list TaskAllocation.t) * Store.t :=
  let db := Session.open s in
  match query_project db project_id with
  | None => (Raise (HTTPException 404 "Project not found"), s)
  | Some _ =>
      match has_cycle db project_id with
      | Return true =>
          (Raise (HTTPException 400
                    "Cannot allocate: project has circular dependencies"), s)
      | Return false =>
          match allocate_resources db project_id utcnow with
          | Return (allocations, db') => (Return allocations, Session.store db')
          | Raise e => (Raise e, s)
          | OutOfFuel => (OutOfFuel, s)
          end
      | Raise e => (Raise e, s)
      | OutOfFuel => (OutOfFuel, s)
      end
  end.

(** ** Vocabulary of the specification *)

(** Dependencies as pairs (predecessor, successor). *)
Definition edges_of (dependencies : list TaskDependency.t) : list (Z * Z) :=
  (λ d, (TaskDependency.predecessor_task_id d,
         TaskDependency.successor_task_id d)) <$> dependencies.

(** The dependency edges of a project. *)
Definition edges (db : Session.t) (project_id : Z) : list (Z * Z) :=
  edges_of (query_dependencies db project_id).

(** The ids of the tasks of a project. *)
Definition task_ids (db : Session.t) (project_id : Z) : list Z :=
  Task.id <$> query_tasks db project_id.

(** The successors of [p], one per edge out of [p], in the order of the
    edges; and the number of edges into [s]. *)
Definition successors (E : list (Z * Z)) (p : Z) : list Z :=
  (filter (λ e, e.1 = p) E).*2.

Definition indegree (E : list (Z * Z)) (s : Z) : Z :=
  Z.of_nat (length (filter (λ e, e.2 = s) E)).

(** A dictionary is well formed when its key list has no duplicate and
    lists exactly the keys of its map. *)
Definition dict_wf {V : Type} (d : PyDict.t V) : Prop :=
  NoDup (PyDict.keys d)
  ∧ ∀ k, k ∈ PyDict.keys d ↔ is_Some (PyDict.items d !! k).

Definition edge (E : list (Z * Z)) : relation Z := λ p s, (p, s) ∈ E.

(** A directed cycle: a node that reaches itself in one step or more. *)
Definition cyclic (E : list (Z * Z)) : Prop := ∃ x, tc (edge E) x x.

Definition acyclic (E : list (Z * Z)) : Prop := ∀ x, ¬ tc (edge E) x x.

(** [x] occurs strictly before [y] in [l]. *)
Definition before {A : Type} (x y : A) (l : list A) : Prop :=
  ∃ l1 l2 l3, l = l1 ++ x :: l2 ++ y :: l3.

(** Primary keys are unique, and the successor of a dependency of the
    project is a task of the project (the predecessor is one by the join of
    [query_dependencies]). *)
Definition unique_task_ids (db : Session.t) : Prop :=
  NoDup (Task.id <$> Store.tasks (Session.store db)).

Definition successors_in_project (db : Session.t) (project_id : Z) : Prop :=
  Forall (λ e, e.2 ∈ task_ids db project_id) (edges db project_id).

(** A skill match: the resource has every skill the task requires. *)
Definition covers (resource : Resource.t) (task : Task.t) : Prop :=
  Task.required_skills task ⊆ Resource.skills resource.

(** The timeline of a list of allocations that starts at [t0] and has no
    gap: each allocation starts where the one before it ended. *)
Fixpoint contiguous (t0 : Z) (l : list TaskAllocation.t) : Prop :=
  match l with
  | [] => True
  | a :: l' =>
      TaskAllocation.scheduled_start a = t0
      ∧ contiguous (TaskAllocation.scheduled_end a) l'
  end.

(** A row is an allocation object after its flush: the same object with a
    key. *)
Definition stamped (row a : TaskAllocation.t) : Prop :=
  ∃ k, row = TaskAllocation.with_id k a.

(** What the allocation loop records for a task when the clock shows [t]. *)
Definition records (resources : list Resource.t) (a : TaskAllocation.t)
    (task : Task.t) : Prop :=
  TaskAllocation.task_id a = Task.id task
  ∧ TaskAllocation.scheduled_end a - TaskAllocation.scheduled_start a
    = minutes (Task.estimated_duration task)
  ∧ ∃ r, choose_resource resources task = Return r
         ∧ TaskAllocation.resource_id a = Resource.id r.

(** ** Worked examples *)

Module Examples.

(** Three tasks of project 1; 1 and 3 precede 2. *)
Definition tasks : list Task.t :=
  [ Task.mk 1 1 240 5 ["analysis"];
    Task.mk 2 1 480 4 [];
    Task.mk 3 1 10 9 [] ].

Definition clerk : Resource.t := Resource.mk 1 EMPLOYEE [] true.
Definition analyser : Resource.t := Resource.mk 2 EQUIPMENT ["analysis"] true.
Definition analyst : Resource.t := Resource.mk 3 EMPLOYEE ["analysis"] true.

Definition diamond : Store.t :=
  Store.mk [Project.mk 1] tasks
    [TaskDependency.mk (Some 1) 1 2; TaskDependency.mk (Some 2) 3 2]
    [clerk; analyser; analyst] [].

(** The same project with the single dependency 1 → 2. *)
Definition chain : Store.t :=
  Store.mk [Project.mk 1] tasks [TaskDependency.mk (Some 1) 1 2]
    [clerk; analyser] [].

(** The same project with the dependencies 1 → 2 and 2 → 1. *)
Definition loop : Store.t :=
  Store.mk [Project.mk 1] tasks
    [TaskDependency.mk (Some 1) 1 2; TaskDependency.mk (Some 2) 2 1]
    [clerk; analyser] [].

(** The request that closes the cycle of [chain]. *)
Definition back_edge : DependencyCreate :=
  {| predecessor_task_id := 2; successor_task_id := 1 |}.

End Examples.

(** ** Vocabulary of the depth-first search *)

(** The edges the search follows: [y] is in the adjacency list of [x]. *)
Definition neighbor (graph : PyDict.t (list Z)) : relation Z :=
  λ x y, y ∈ PyDict.get x [] graph.

(** A node whose call of [dfs] has returned. *)
Definition finished (s : dfs_state) (x : Z) : Prop :=
  x ∈ visited s ∧ x ∉ rec_stack s.

(** The finished nodes are closed under the edges and lie on no cycle. *)
Definition dfs_inv (graph : PyDict.t (list Z)) (s : dfs_state) : Prop :=
  rec_stack s ⊆ visited s
  ∧ (∀ x y, finished s x → neighbor graph x y → finished s y)
  ∧ (∀ x, finished s x → ¬ tc (neighbor graph) x x).

(** [dfs] is called on an unvisited node that every node of the recursion
    stack reaches; [U] bounds the nodes the search can meet. *)
Definition dfs_pre (graph : PyDict.t (list Z)) (U : gset Z) (fuel : nat)
    (node : Z) (s : dfs_state) : Prop :=
  node ∈ U
  ∧ (node ∉ visited s)
  ∧ dfs_inv graph s
  ∧ (∀ r, r ∈ rec_stack s → rtc (neighbor graph) r node)
  ∧ (size (U ∖ visited s) ≤ fuel)%nat.

(** It returns [True] only on a graph with a cycle; when it returns [False]
    the stack is as it was and the node is finished. *)
Definition dfs_post (graph : PyDict.t (list Z)) (node : Z) (s : dfs_state)
    (res : outcome (bool * dfs_state)) : Prop :=
  ∃ found s',
    res = Return (found, s')
    ∧ (if found : bool then ∃ x, tc (neighbor graph) x x
       else rec_stack s' = rec_stack s
            ∧ visited s ⊆ visited s'
            ∧ node ∈ visited s'
            ∧ dfs_inv graph s').

(** ** Vocabulary of Kahn's algorithm *)

(** The ids of the tasks placed in the output so far. *)
Definition placed (st : kahn_state) : list Z := Task.id <$> sorted_tasks st.

(** The edges whose predecessor is not in [l]. *)
Definition remaining (E : list (Z * Z)) (l : list Z) : list (Z * Z) :=
  filter (λ e, e.1 ∉ l) E.

(** The number of occurrences of [k] in [l]. *)
Definition occurrences (k : Z) (l : list Z) : Z :=
  Z.of_nat (length (filter (λ x, x = k) l)).

(** Every element of [l] comes after all its predecessors. *)
Definition respects (E : list (Z * Z)) (l : list Z) : Prop :=
  ∀ j s p, l !! j = Some s → (p, s) ∈ E →
           ∃ i, (i < j)%nat ∧ l !! i = Some p.

(** The key [queue.sort] gives to a task id. *)
Definition sort_key (task_map : PyDict.t Task.t) (tid : Z) : Z :=
  match PyDict.items task_map !! tid with
  | Some task => - Task.priority task
  | None => 0
  end.


(** The invariant of the [while] loop: the counters are the in-degrees in
    the graph of the remaining edges, the placed and queued tasks are the
    tasks whose counter is zero, and the output respects the edges. *)
Definition kahn_inv (E : list (Z * Z)) (ids : list Z)
    (task_map : PyDict.t Task.t) (st : kahn_state) : Prop :=
  dict_wf (in_degree st)
  ∧ (∀ k, k ∈ PyDict.keys (in_degree st) ↔ k ∈ ids)
  ∧ NoDup (placed st ++ queue st)
  ∧ (∀ k, k ∈ ids →
       PyDict.items (in_degree st) !! k
       = Some (indegree (remaining E (placed st)) k))
  ∧ (∀ k, k ∈ placed st ++ queue st ↔
          k ∈ ids ∧ indegree (remaining E (placed st)) k = 0)
  ∧ respects E (placed st)
  ∧ Forall (λ t, PyDict.items task_map !! Task.id t = Some t)
           (sorted_tasks st).

(** One iteration of the [while] loop, and the states the loop goes
    through. *)
Definition kahn_next (task_map : PyDict.t Task.t)
    (graph : PyDict.t (list Z)) : relation kahn_state :=
  λ st st', kahn_step task_map graph st = Return st'.

Definition kahn_reachable (task_map : PyDict.t Task.t)
    (graph : PyDict.t (list Z)) : relation kahn_state :=
  rtc (kahn_next task_map graph).

(** The dictionary [task_map] of [topological_sort], and the order in which
    its dictionaries list the ids of the tasks. *)
Definition task_map_of (tasks : list Task.t) : PyDict.t Task.t :=
  PyDict.comprehension Task.id (λ task, task) tasks.

Definition key_order (tasks : list Task.t) : list Z :=
  PyDict.keys (PyDict.comprehension Task.id (λ _, 0) tasks).

(** What the set-up loop has built after the given dependencies. *)
Definition counted (tasks : list Task.t)
    (dependencies : list TaskDependency.t)
    (acc : PyDict.t (list Z) * PyDict.t Z) : Prop :=
  dict_wf acc.1
  ∧ dict_wf acc.2
  ∧ PyDict.keys acc.2 = key_order tasks
  ∧ (∀ k, k ∈ key_order tasks →
       PyDict.items acc.1 !! k
       = Some (successors (edges_of dependencies) k))
  ∧ (∀ k, k ∈ key_order tasks →
       PyDict.items acc.2 !! k
       = Some (indegree (edges_of dependencies) k)).

(** ** Task and resource endpoints

    The request bodies keep the columns of the rows that are modelled.  Each
    of these endpoints adds or changes one row and commits once, so the row
    goes to the store directly; a new row takes the next key of its
    table. *)

Module TaskCreate.
Record t : Type := mk {
  estimated_duration : Z;
  priority : Z;
  required_skills : list string
}.
End TaskCreate.

Module ResourceCreate.
Record t : Type := mk {
  type : ResourceType;
  skills : list string
}.
End ResourceCreate.

(** [l if l else []] *)
Definition or_empty {A : Type} (l : list A) : list A :=
  match l with
  | [] => []
  | _ :: _ => l
  end.


Definition with_resources (resources : list Resource.t) (s : Store.t)
  : Store.t :=
  Store.mk (Store.projects s) (Store.tasks s) (Store.task_dependencies s)
           resources (Store.task_allocations s).






(** [db.query(Resource).filter(Resource.id == resource_id).first()] *)
Definition query_resource (db : Session.t) (resource_id : Z)
  : option Resource.t :=
  head (filter (λ r, Resource.id r = resource_id)
               (Store.resources (Session.store db))).

(** POST /api/resources: a new resource is available. *)
Definition create_resource (resource : ResourceCreate.t) (s : Store.t)
  : Resource.t * Store.t :=
  let new_resource :=
    Resource.mk (next_id (Some ∘ Resource.id <$> Store.resources s))
                (ResourceCreate.type resource)
                (or_empty (ResourceCreate.skills resource)) true in
  (new_resource, with_resources (Store.resources s ++ [new_resource]) s).

(** GET /api/resources *)
Definition list_resources (s : Store.t) : list Resource.t :=
  Store.resources s.

(** GET /api/resources/{resource_id} *)
Definition get_resource (resource_id : Z) (s : Store.t) : outcome Resource.t :=
  match query_resource (Session.open s) resource_id with
  | None => Raise (HTTPException 404 "Resource not found")
  | Some resource => Return resource
  end.

(** PUT /api/resources/{resource_id}/availability *)
Definition update_availability (resource_id : Z) (available : bool)
    (s : Store.t) : outcome bool * Store.t :=
  match query_resource (Session.open s) resource_id with
  | None => (Raise (HTTPException 404 "Resource not found"), s)
  | Some _ =>
      (Return available,
       with_resources
         ((λ r, if decide (Resource.id r = resource_id)
                then Resource.mk (Resource.id r) (Resource.type r)
                                 (Resource.skills r) available
                else r)
            <$> Store.resources s) s)
  end.

(** ** Invariants of the store *)

(** Both ends of every dependency are tasks, of one project. *)
Definition dependencies_within_projects (s : Store.t) : Prop :=
  Forall (λ d, ∃ tp ts,
            tp ∈ Store.tasks s ∧ ts ∈ Store.tasks s
            ∧ Task.id tp = TaskDependency.predecessor_task_id d
            ∧ Task.id ts = TaskDependency.successor_task_id d
            ∧ Task.project_id tp = Task.project_id ts)
         (Store.task_dependencies s).

Definition store_wf (s : Store.t) : Prop :=
  NoDup (Task.id <$> Store.tasks s) ∧ dependencies_within_projects s.

Definition unique_resource_ids (s : Store.t) : Prop :=
  NoDup (Resource.id <$> Store.resources s).

(** The duration of a list of tasks, in minutes. *)
Definition total_duration (tasks : list Task.t) : Z :=
  foldr Z.add 0 (Task.estimated_duration <$> tasks).

(** The row that [create_dependency] stores for a request, and the store
    with one more dependency. *)
Definition stored_dependency (dependency : DependencyCreate) (s : Store.t)
  : TaskDependency.t :=
  TaskDependency.mk
    (Some (next_id (TaskDependency.id <$> Store.task_dependencies s)))
    (predecessor_task_id dependency) (successor_task_id dependency).

Definition with_dependency (d : TaskDependency.t) (s : Store.t) : Store.t :=
  Store.mk (Store.projects s) (Store.tasks s)
           (Store.task_dependencies s ++ [d])
           (Store.resources s) (Store.task_allocations s).

(** * Properties *)

(** ** Outcomes *)

Section outcome_lemmas.
Context {A B : Type}.

Lemma bind_Return (m : outcome A) (f : A → outcome B) (b : B) :
  m ≫= f = Return b ↔ ∃ a, m = Return a ∧ f a = Return b.
Proof.
  destruct m as [a| |]; simpl; split.
  - eauto.
  - intros (a' & [= <-] & H). exact H.
  - discriminate.
  - intros (? & [=] & _).
  - discriminate.
  - intros (? & [=] & _).
Qed.

Lemma for_each_app (f : B → A → outcome B) (acc : B) (l1 l2 : list A) :
  for_each f acc (l1 ++ l2)
  = for_each f acc l1 ≫= λ acc', for_each f acc' l2.
Proof.
  revert acc. induction l1 as [|x l1 IH]; intros acc; simpl; [done|].
  destruct (f acc x) as [acc'| |]; simpl; auto.
Qed.
End outcome_lemmas.

Ltac inv_bind H :=
  repeat match type of H with
  | _ ≫= _ = Return _ =>
      let a := fresh "a" in
      let H1 := fresh H in
      apply bind_Return in H as (a & H1 & H)
  end.

(** ** Paths *)

Lemma tc_first_step {A : Type} (R : relation A) (x z : A) :
  tc R x z → ∃ y, R x y ∧ rtc R y z.
Proof.
  intros H. destruct H as [a b Hab|a b c Hab Hbc].
  - exists b. split; [done|]. apply rtc_refl.
  - exists b. split; [done|]. by apply tc_rtc.
Qed.

Lemma tc_iff {A : Type} (R R' : relation A) (x y : A) :
  (∀ a b, R a b ↔ R' a b) → tc R x y ↔ tc R' x y.
Proof.
  intros H. split; intros Hxy.
  - induction Hxy as [x y Hxy|x y z Hxy _ IH].
    + apply tc_once. by apply H.
    + eapply tc_l; [by apply H|done].
  - induction Hxy as [x y Hxy|x y z Hxy _ IH].
    + apply tc_once. by apply H.
    + eapply tc_l; [by apply H|done].
Qed.

(** ** Sizes of sets of ids *)

Lemma size_union_le (X Y : gset Z) : (size (X ∪ Y) ≤ size X + size Y)%nat.
Proof.
  rewrite size_union_alt.
  assert (size (Y ∖ X) ≤ size Y)%nat by (apply subseteq_size; set_solver).
  lia.
Qed.

Lemma size_list_to_set_le (l : list Z) :
  (size (list_to_set l : gset Z) ≤ length l)%nat.
Proof.
  induction l as [|x l IH].
  - rewrite list_to_set_nil, size_empty. simpl. lia.
  - rewrite list_to_set_cons. etrans; [apply size_union_le|].
    rewrite size_singleton. simpl. lia.
Qed.

(** ** The allocator *)

Lemma skills_match_covers (resource : Resource.t) (task : Task.t) :
  skills_match resource task = true ↔ covers resource task.
Proof.
  unfold skills_match, covers. rewrite forallb_forall.
  split.
  - intros H skill Hin. apply list_elem_of_In, H in Hin.
    by apply bool_decide_eq_true in Hin.
  - intros H skill Hin. apply bool_decide_eq_true, H.
    by apply list_elem_of_In.
Qed.

(** The inner loop returns the first employee that covers the task. *)
Lemma find_matching_employee_Some resources task r :
  find_matching_employee resources task = Some r ↔
  ∃ l1 l2, resources = l1 ++ r :: l2
    ∧ Resource.type r = EMPLOYEE ∧ covers r task
    ∧ ∀ e, e ∈ l1 → ¬ (Resource.type e = EMPLOYEE ∧ covers e task).
Proof.
  induction resources as [|x rs IH]; simpl.
  - split; [done|]. intros (l1 & l2 & Heq & _). by destruct l1.
  - destruct (decide (Resource.type x = EMPLOYEE)) as [Hty|Hty];
      [destruct (skills_match x task) eqn:Hm|].
    + split.
      * intros [= <-]. exists [], rs. repeat split; auto.
        -- by apply skills_match_covers.
        -- intros e He. by apply elem_of_nil in He.
      * intros (l1 & l2 & Heq & Hr1 & Hr2 & Hfirst).
        destruct l1 as [|y l1]; simplify_eq/=; [done|].
        exfalso. apply (Hfirst y); [left|].
        split; [done|]. by apply skills_match_covers.
    + rewrite IH. split.
      * intros (l1 & l2 & -> & ? & ? & Hfirst). exists (x :: l1), l2.
        repeat split; auto. intros e [->|He]%elem_of_cons; [|by apply Hfirst].
        intros [_ Hc]. apply skills_match_covers in Hc. congruence.
      * intros (l1 & l2 & Heq & Hr1 & Hr2 & Hfirst).
        destruct l1 as [|y l1]; simplify_eq/=.
        -- apply skills_match_covers in Hr2. congruence.
        -- exists l1, l2. repeat split; auto.
           intros e He. apply Hfirst. by right.
    + rewrite IH. split.
      * intros (l1 & l2 & -> & ? & ? & Hfirst). exists (x :: l1), l2.
        repeat split; auto. intros e [->|He]%elem_of_cons; [|by apply Hfirst].
        by intros [? _].
      * intros (l1 & l2 & Heq & Hr1 & Hr2 & Hfirst).
        destruct l1 as [|y l1]; simplify_eq/=; try done.
        exists l1, l2. repeat split; auto.
        intros e He. apply Hfirst. by right.
Qed.


(** With a non-empty roster a resource is always chosen, and it is one of
    the roster. *)
Lemma choose_resource_nonempty resources task :
  resources ≠ [] →
  ∃ r, choose_resource resources task = Return r ∧ r ∈ resources.
Proof.
  intros Hne. unfold choose_resource.
  destruct (find_matching_employee resources task) as [r|] eqn:Hf.
  - exists r. split; [done|].
    apply find_matching_employee_Some in Hf as (l1 & l2 & -> & _).
    apply elem_of_app. right. left.
  - destruct resources as [|r rs]; [done|]. exists r. split; [done|left].
Qed.

(** [insert_allocations] appends the new rows, in order, each the object it
    was given with a key. *)
Lemma insert_allocations_spec table new :
  ∃ rows, insert_allocations table new = (table ++ rows, rows)
          ∧ Forall2 stamped rows new.
Proof.
  revert table. induction new as [|a new IH]; intros table; simpl.
  - exists []. by rewrite app_nil_r.
  - destruct (IH (table ++
      [TaskAllocation.with_id (next_id (TaskAllocation.id <$> table)) a]))
      as (rows & -> & Hrows).
    eexists. split.
    + by rewrite <-app_assoc.
    + constructor; [by eexists | done].
Qed.

Lemma contiguous_app t0 l1 l2 :
  contiguous t0 (l1 ++ l2) ↔
  contiguous t0 l1
  ∧ contiguous (default t0 (TaskAllocation.scheduled_end <$> last l1)) l2.
Proof.
  revert t0. induction l1 as [|a l1 IH]; intros t0; simpl.
  - tauto.
  - rewrite IH. destruct l1 as [|b l1]; simpl; [tauto|].
    destruct (last (b :: l1)) as [c|] eqn:Hl; simpl; [tauto|].
    by apply last_None in Hl.
Qed.

Lemma contiguous_lookup t0 l :
  contiguous t0 l ↔
  (∀ a, head l = Some a → TaskAllocation.scheduled_start a = t0)
  ∧ (∀ i a b, l !! i = Some a → l !! S i = Some b →
       TaskAllocation.scheduled_start b = TaskAllocation.scheduled_end a).
Proof.
  revert t0. induction l as [|x l IH]; intros t0; simpl.
  - split; [|done]. intros _. split; [done|]. by intros i a b [=].
  - rewrite IH. split.
    + intros (Hx & Hhd & Hnext). split; [by intros a [= <-]|].
      intros [|i] a b; simpl.
      * intros [= <-] Hb. apply Hhd. by destruct l; simplify_eq/=.
      * apply Hnext.
    + intros (Hhd & Hnext). split; [by apply Hhd|]. split.
      * intros a Ha. apply (Hnext 0%nat x a); [done|].
        by destruct l; simplify_eq/=.
      * intros i a b. apply (Hnext (S i)).
Qed.

Lemma contiguous_stamped t0 rows l :
  Forall2 stamped rows l → contiguous t0 l → contiguous t0 rows.
Proof.
  intros H. revert t0. induction H as [|r a rows l [k ->] _ IH]; intros t0.
  - done.
  - simpl. intros [? ?]. split; [done|]. by apply IH.
Qed.

Lemma records_stamped resources rows l tasks :
  Forall2 stamped rows l →
  Forall2 (records resources) l tasks →
  Forall2 (records resources) rows tasks.
Proof.
  intros H. revert tasks. induction H as [|r a rows l [k ->] _ IH];
    intros tasks Hl; inv Hl; constructor; auto.
Qed.

(** The loop over the ordered tasks: what it appends to [allocations] and
    adds to the session. *)
Lemma allocate_loop resources tasks st st' :
  for_each (allocate_task resources) st tasks = Return st' →
  ∃ new,
    allocations st' = allocations st ++ new
    ∧ session st' =
        Session.mk (Session.store (session st))
                   (Session.new_dependencies (session st))
                   (Session.new_allocations (session st) ++ new)
    ∧ Forall2 (records resources) new tasks
    ∧ contiguous (current_time st) new
    ∧ current_time st' =
        default (current_time st) (TaskAllocation.scheduled_end <$> last new).
Proof.
  revert st. induction tasks as [|task tasks IH]; intros st H; simpl in H.
  - injection H as <-. exists []. rewrite !app_nil_r.
    repeat split; [by destruct (session st) | constructor].
  - apply bind_Return in H as (st1 & Hstep & H).
    unfold allocate_task in Hstep. inv_bind Hstep.
    unfold timedelta_minutes, datetime_add, minutes in *.
    repeat case_decide; unfold mret, outcome_ret in *; simplify_eq/=.
    destruct (IH _ H) as (new & Hal & Hse & Hrec & Hcont & Hclock).
    simpl in *. eexists (_ :: new).
    split; [by rewrite Hal, <-app_assoc|].
    split; [by rewrite Hse, <-app_assoc|].
    split; [constructor; [|done]; repeat split; simpl; [unfold minutes; lia|eauto]|].
    split; [done|].
    rewrite Hclock. destruct new as [|b new]; [done|].
    cbn [last]. destruct (last (b :: new)) as [c|] eqn:Hl; [done|].
    by apply last_None in Hl.
Qed.


(** What a returning call of [allocate_resources] has done. *)
Lemma allocate_resources_Return db project_id utcnow allocs db' :
  allocate_resources db project_id utcnow = Return (allocs, db') →
  ∃ sorted,
    topological_sort db project_id = Return sorted
    ∧ query_available_resources db ≠ []
    ∧ Forall2 (records (query_available_resources db)) allocs sorted
    ∧ contiguous utcnow allocs
    ∧ ∃ old, Forall2 stamped old (Session.new_allocations db)
        ∧ Store.task_allocations (Session.store db')
          = Store.task_allocations (Session.store db) ++ old ++ allocs.
Proof.
  unfold allocate_resources. intros H.
  apply bind_Return in H as (sorted & Hsort & H).
  exists sorted. split; [done|].
  destruct (query_available_resources db) as [|r rs] eqn:Hres; [done|].
  split; [done|].
  apply bind_Return in H as (st & Hloop & H).
  apply allocate_loop in Hloop as (new & Hal & Hse & Hrec & Hcont & _).
  simpl in *. unfold Session.commit in H. rewrite Hse in H. simpl in H.
  destruct (insert_dependencies _ _) as [deps new_deps].
  destruct (insert_allocations_spec
              (Store.task_allocations (Session.store db))
              (Session.new_allocations db ++ new)) as (rows & Hins & Hrows).
  rewrite Hins in H. simpl in H. injection H as <- <-. simpl.
  apply Forall2_app_inv_r in Hrows as (old & rows' & Hold & Hnew & ->).
  rewrite <-(Forall2_length _ _ _ Hold), drop_app_length.
  repeat split.
  - by eapply records_stamped.
  - by eapply contiguous_stamped.
  - by exists old.
Qed.

(** ** Dictionaries *)

Section dict_lemmas.
Context {V : Type}.
Implicit Types (d : PyDict.t V) (k : Z) (v : V).

Lemma dict_wf_empty : dict_wf (@PyDict.empty V).
Proof.
  split; [constructor|]. intros k. simpl. rewrite lookup_empty.
  split; [by intros ?%elem_of_nil | by intros [? ?]].
Qed.

Lemma keys_setitem_present d k v :
  is_Some (PyDict.items d !! k) →
  PyDict.keys (PyDict.setitem k v d) = PyDict.keys d.
Proof. intros [v' Hv]. simpl. by rewrite Hv. Qed.

Lemma elem_of_keys_setitem d k v k' :
  dict_wf d →
  k' ∈ PyDict.keys (PyDict.setitem k v d) ↔ k' = k ∨ k' ∈ PyDict.keys d.
Proof.
  intros [_ Hdom]. simpl. destruct (PyDict.items d !! k) eqn:Hk.
  - split; [auto|]. intros [->|?]; [|done]. apply Hdom. by rewrite Hk.
  - rewrite elem_of_app, list_elem_of_singleton. tauto.
Qed.

Lemma dict_wf_setitem d k v : dict_wf d → dict_wf (PyDict.setitem k v d).
Proof.
  intros Hwf. split.
  - destruct Hwf as [Hnd Hdom]. simpl.
    destruct (PyDict.items d !! k) eqn:Hk; [done|].
    apply NoDup_app. split; [done|]. split; [|apply NoDup_singleton].
    intros k' Hk' ->%list_elem_of_singleton.
    apply Hdom in Hk'. rewrite Hk in Hk'. by destruct Hk'.
  - intros k'. rewrite elem_of_keys_setitem by done.
    simpl. rewrite lookup_insert. destruct Hwf as [_ Hdom].
    case_decide as Hkk; subst.
    + split; [eauto|auto].
    + rewrite Hdom. split; [|auto]. by intros [?|?].
Qed.

Lemma length_keys_setitem d k v :
  (length (PyDict.keys (PyDict.setitem k v d))
   ≤ S (length (PyDict.keys d)))%nat.
Proof.
  simpl. destruct (PyDict.items d !! k); [lia|].
  rewrite length_app. simpl. lia.
Qed.
End dict_lemmas.

Section comprehension_lemmas.
Context {A V : Type} (key : A → Z) (value : A → V).

Lemma comprehension_snoc (l : list A) (x : A) :
  PyDict.comprehension key value (l ++ [x])
  = PyDict.setitem (key x) (value x) (PyDict.comprehension key value l).
Proof. unfold PyDict.comprehension. by rewrite foldl_snoc. Qed.

Lemma comprehension_wf (l : list A) :
  dict_wf (PyDict.comprehension key value l).
Proof.
  induction l as [|x l IH] using rev_ind.
  - apply dict_wf_empty.
  - rewrite comprehension_snoc. by apply dict_wf_setitem.
Qed.

Lemma comprehension_keys (l : list A) (k : Z) :
  k ∈ PyDict.keys (PyDict.comprehension key value l) ↔ k ∈ key <$> l.
Proof.
  induction l as [|x l IH] using rev_ind.
  - simpl. split; by intros ?%elem_of_nil.
  - rewrite comprehension_snoc, elem_of_keys_setitem
      by apply comprehension_wf.
    rewrite fmap_app, elem_of_app, IH. simpl.
    rewrite list_elem_of_singleton. tauto.
Qed.

Lemma comprehension_length (l : list A) :
  (length (PyDict.keys (PyDict.comprehension key value l)) ≤ length l)%nat.
Proof.
  induction l as [|x l IH] using rev_ind; [done|].
  rewrite comprehension_snoc, length_app.
  pose proof (length_keys_setitem (PyDict.comprehension key value l)
                (key x) (value x)).
  change (length [x]) with 1%nat. lia.
Qed.

Lemma comprehension_lookup_Some (l : list A) (k : Z) (v : V) :
  PyDict.items (PyDict.comprehension key value l) !! k = Some v →
  ∃ x, x ∈ l ∧ key x = k ∧ value x = v.
Proof.
  induction l as [|x l IH] using rev_ind.
  - simpl. by rewrite lookup_empty.
  - rewrite comprehension_snoc. simpl. rewrite lookup_insert.
    case_decide as Hk.
    + intros [= <-]. exists x. split; [|done].
      apply elem_of_app. right. left.
    + intros (y & Hy & ?)%IH. exists y. split; [|done].
      apply elem_of_app. by left.
Qed.

Lemma comprehension_lookup_None (l : list A) (k : Z) :
  k ∉ key <$> l →
  PyDict.items (PyDict.comprehension key value l) !! k = None.
Proof.
  intros Hk. apply eq_None_not_Some. intros Hs.
  apply Hk, comprehension_keys. by apply comprehension_wf.
Qed.

Lemma comprehension_lookup_NoDup (l : list A) (x : A) :
  NoDup (key <$> l) → x ∈ l →
  PyDict.items (PyDict.comprehension key value l) !! key x
  = Some (value x).
Proof.
  induction l as [|y l IH] using rev_ind; [by intros _ ?%elem_of_nil|].
  rewrite fmap_app, NoDup_app. intros (Hnd & Hdisj & _).
  rewrite comprehension_snoc. simpl. rewrite lookup_insert.
  intros [Hx| ->%list_elem_of_singleton]%elem_of_app.
  - case_decide as Hk; [|by apply IH]. exfalso.
    apply (Hdisj (key x)); [by apply list_elem_of_fmap_2|].
    rewrite <-Hk. simpl. left.
  - by rewrite decide_True.
Qed.
End comprehension_lemmas.

Lemma comprehension_lookup_const {A V : Type} (key : A → Z) (c : V)
    (l : list A) (k : Z) :
  k ∈ key <$> l →
  PyDict.items (PyDict.comprehension key (λ _, c) l) !! k = Some c.
Proof.
  intros Hk.
  apply (comprehension_keys key (λ _, c)), comprehension_wf in Hk
    as [v Hv].
  rewrite Hv. by apply comprehension_lookup_Some in Hv as (_ & _ & _ & <-).
Qed.

(** ** Edges *)

Lemma elem_of_edges_of dependencies p s :
  (p, s) ∈ edges_of dependencies ↔
  ∃ d, d ∈ dependencies
       ∧ TaskDependency.predecessor_task_id d = p
       ∧ TaskDependency.successor_task_id d = s.
Proof.
  unfold edges_of. rewrite list_elem_of_fmap. split.
  - intros (d & [= -> ->] & Hd). eauto.
  - intros (d & Hd & <- & <-). eauto.
Qed.

Lemma successors_snoc E e p :
  successors (E ++ [e]) p
  = successors E p ++ (if decide (e.1 = p) then [e.2] else []).
Proof.
  unfold successors. rewrite filter_app, fmap_app. f_equal.
  rewrite filter_cons, filter_nil. by case_decide.
Qed.

Lemma elem_of_successors E p s : s ∈ successors E p ↔ (p, s) ∈ E.
Proof.
  unfold successors. rewrite list_elem_of_fmap. split.
  - intros ([p' s'] & -> & [Hp He]%list_elem_of_filter). simpl in *.
    by subst.
  - intros He. exists (p, s). split; [done|].
    by apply list_elem_of_filter.
Qed.

Lemma successors_nil_iff E p : (∀ s, (p, s) ∉ E) → successors E p = [].
Proof.
  intros H. destruct (successors E p) as [|s l] eqn:Hs; [done|].
  exfalso. apply (H s), elem_of_successors. rewrite Hs. left.
Qed.

Lemma indegree_snoc E e s :
  indegree (E ++ [e]) s = indegree E s + (if decide (e.2 = s) then 1 else 0).
Proof.
  unfold indegree. rewrite filter_app, length_app, filter_cons, filter_nil.
  case_decide; simpl; lia.
Qed.

Lemma indegree_nonneg E s : 0 ≤ indegree E s.
Proof. unfold indegree. lia. Qed.

Lemma indegree_zero E s : indegree E s = 0 ↔ ∀ p, (p, s) ∉ E.
Proof.
  unfold indegree. split.
  - intros H p Hin.
    assert ((p, s) ∈ filter (λ e, e.2 = s) E) as Hf
      by by apply list_elem_of_filter.
    destruct (filter (λ e, e.2 = s) E); [by apply elem_of_nil in Hf|].
    simpl in H. lia.
  - intros H. destruct (filter (λ e, e.2 = s) E) as [|[p s'] l] eqn:Hf;
      [done|]. exfalso. apply (H p).
    assert ((p, s') ∈ filter (λ e, e.2 = s) E) as Hin by (rewrite Hf; left).
    apply list_elem_of_filter in Hin as [Hs Hin]. simpl in Hs. by subst.
Qed.

(** ** Queries *)

Lemma elem_of_query_dependencies db project_id d :
  d ∈ query_dependencies db project_id →
  TaskDependency.predecessor_task_id d ∈ task_ids db project_id.
Proof.
  unfold query_dependencies, task_ids, query_tasks.
  intros (d' & Hd & _)%list_elem_of_bind.
  apply list_elem_of_bind in Hd as (t & Hd & Ht).
  case_decide as Hm; [|by apply elem_of_nil in Hd].
  apply list_elem_of_singleton in Hd as ->. destruct Hm as [-> Hp].
  apply list_elem_of_fmap_2. by apply list_elem_of_filter.
Qed.

Lemma edges_pred_in_project db project_id p s :
  (p, s) ∈ edges db project_id → p ∈ task_ids db project_id.
Proof.
  intros (d & Hd & <- & _)%elem_of_edges_of.
  by apply elem_of_query_dependencies.
Qed.

(** ** Depth-first search *)

Section dfs_correct.
Context (graph : PyDict.t (list Z)) (U : gset Z).
Context (Hclosed : ∀ x y, neighbor graph x y → y ∈ U).

Lemma finished_rtc s x y :
  dfs_inv graph s → finished s x → rtc (neighbor graph) x y → finished s y.
Proof.
  intros (_ & Hcl & _) Hx Hxy. induction Hxy as [|x y z Hxy _ IH]; [done|].
  apply IH. by eapply Hcl.
Qed.

Lemma finished_mono s s' x :
  visited s ⊆ visited s' → rec_stack s' = rec_stack s →
  finished s x → finished s' x.
Proof. unfold finished. intros Hv Hst. rewrite Hst. set_solver. Qed.

(** The loop over the neighbors of [node], given that the recursive calls
    meet their specification. *)
Lemma dfs_neighbors_spec rec fuel node :
  (∀ y s, dfs_pre graph U fuel y s → dfs_post graph y s (rec y s)) →
  ∀ neighbors s,
    (∀ y, y ∈ neighbors → neighbor graph node y) →
    dfs_inv graph s →
    (∀ r, r ∈ rec_stack s → rtc (neighbor graph) r node) →
    (size (U ∖ visited s) ≤ fuel)%nat →
    ∃ found s',
      dfs_neighbors rec neighbors s = Return (found, s')
      ∧ (if found : bool then ∃ x, tc (neighbor graph) x x
         else rec_stack s' = rec_stack s
              ∧ visited s ⊆ visited s'
              ∧ dfs_inv graph s'
              ∧ ∀ y, y ∈ neighbors → finished s' y).
Proof.
  intros Hrec neighbors.
  induction neighbors as [|y l IH]; intros s Hnb Hinv Hstack Hsize; simpl.
  - exists false, s. split; [done|]. split_and!; [done..|].
    by intros y ?%elem_of_nil.
  - assert (neighbor graph node y) as Hy by (apply Hnb; left).
    assert (∀ z, z ∈ l → neighbor graph node z) as Hl
      by (intros z Hz; apply Hnb; by right).
    destruct (decide (y ∉ visited s)) as [Hfresh|Hseen].
    + destruct (Hrec y s) as (found & s1 & -> & Hpost).
      { split_and!; [by eapply Hclosed|done..| |done].
        intros r Hr. eapply rtc_r; [by apply Hstack|done]. }
      simpl. destruct found.
      * by exists true, s1.
      * destruct Hpost as (Hst1 & Hv1 & Hy1 & Hinv1).
        destruct (IH s1) as (found & s2 & -> & Hpost2); [done..| | |].
        { by rewrite Hst1. }
        { etrans; [|exact Hsize]. apply subseteq_size. set_solver. }
        exists found, s2. split; [done|]. destruct found; [done|].
        destruct Hpost2 as (Hst2 & Hv2 & Hinv2 & Hfin).
        split; [congruence|]. split; [set_solver|]. split; [done|].
        intros z [->|Hz]%elem_of_cons; [|by apply Hfin].
        split; [set_solver|]. rewrite Hst2, Hst1.
        destruct Hinv as (Hsub & _). set_solver.
    + apply dec_stable in Hseen.
      destruct (decide (y ∈ rec_stack s)) as [Hon|Hoff].
      * exists true, s. split; [done|]. exists y.
        eapply tc_rtc_l; [by apply Hstack|]. by apply tc_once.
      * destruct (IH s) as (found & s2 & -> & Hpost2); [done..|].
        exists found, s2. split; [done|]. destruct found; [done|].
        destruct Hpost2 as (Hst2 & Hv2 & Hinv2 & Hfin).
        split_and!; [done..|].
        intros z [->|Hz]%elem_of_cons; [|by apply Hfin].
        by apply (finished_mono s).
Qed.

(** A recursive call of [dfs] meets its specification. *)
Lemma dfs_spec fuel node s :
  dfs_pre graph U fuel node s → dfs_post graph node s (dfs fuel graph node s).
Proof.
  revert node s. induction fuel as [|fuel IH];
    intros node s (HU & Hfresh & Hinv & Hstack & Hsize).
  - exfalso. assert (node ∈ U ∖ visited s) as Hin by set_solver.
    assert (U ∖ visited s = ∅) as Hempty.
    { apply leibniz_equiv, size_empty_iff. lia. }
    set_solver.
  - simpl.
    set (s1 := DfsState (visited s ∪ {[node]}) (rec_stack s ∪ {[node]})).
    assert (∀ x, finished s1 x ↔ finished s x) as Hfin1.
    { intros x. unfold finished, s1. simpl.
      destruct Hinv as (Hsub & _). set_solver. }
    destruct (dfs_neighbors_spec (dfs fuel graph) fuel node IH
                (PyDict.get node [] graph) s1)
      as (found & s2 & -> & Hpost).
    + done.
    + destruct Hinv as (Hsub & Hcl & Hac). split; [|split].
      * unfold s1. simpl. set_solver.
      * intros x y Hx%Hfin1 Hxy. apply Hfin1. by eapply Hcl.
      * intros x Hx%Hfin1. by apply Hac.
    + unfold s1. simpl. intros r [Hr| ->%elem_of_singleton]%elem_of_union.
      * by apply Hstack.
      * done.
    + assert (U ∖ visited s1 ⊂ U ∖ visited s) as Hlt.
      { unfold s1. simpl. set_solver. }
      apply subset_size in Hlt. lia.
    + simpl. destruct found.
      * by exists true, s2.
      * destruct Hpost as (Hst2 & Hv2 & Hinv2 & Hnbrs).
        assert (node ∈ rec_stack s2) as Hon
          by (rewrite Hst2; unfold s1; simpl; set_solver).
        rewrite decide_True by done.
        eexists false, _. split; [done|]. simpl.
        destruct Hinv as (Hsub & _).
        destruct Hinv2 as (Hsub2 & Hcl2 & Hac2).
        assert (rec_stack s2 ∖ {[node]} = rec_stack s) as Hst.
        { rewrite Hst2. unfold s1. simpl. set_solver. }
        assert (∀ x, finished
                       (DfsState (visited s2) (rec_stack s2 ∖ {[node]})) x
                     ↔ finished s2 x ∨ x = node) as Hfin.
        { intros x. unfold finished. simpl.
          assert (node ∈ visited s2)
            by (apply Hv2; unfold s1; simpl; set_solver).
          destruct (decide (x = node)) as [->|]; set_solver. }
        split; [done|]. split; [unfold s1 in Hv2; simpl in Hv2; set_solver|].
        split; [apply Hv2; unfold s1; simpl; set_solver|].
        split; [simpl; set_solver|]. split.
        -- intros x y [Hx| ->]%Hfin Hxy; apply Hfin; left.
           ++ by eapply Hcl2.
           ++ by apply Hnbrs.
        -- intros x [Hx| ->]%Hfin Hcyc; [by eapply Hac2|].
           apply tc_first_step in Hcyc as (y & Hy & Hback).
           assert (finished s2 node) as [_ Hoff]; [|done].
           eapply finished_rtc; [done|by apply Hnbrs|done].
Qed.

(** The loop over the keys of the graph: with an empty recursion stack it
    returns [True] only on a graph with a cycle, and after it returns
    [False] every key is finished. *)
Lemma has_cycle_from_spec fuel task_ids s :
  (size U ≤ fuel)%nat →
  (∀ k, k ∈ task_ids → k ∈ U) →
  rec_stack s = ∅ →
  dfs_inv graph s →
  ∃ found,
    has_cycle_from fuel graph task_ids s = Return found
    ∧ (if found : bool then ∃ x, tc (neighbor graph) x x
       else ∃ s', rec_stack s' = ∅
                  ∧ visited s ⊆ visited s'
                  ∧ dfs_inv graph s'
                  ∧ ∀ k, k ∈ task_ids → k ∈ visited s').
Proof.
  intros Hfuel. revert s.
  induction task_ids as [|k l IH]; intros s HU Hst Hinv; simpl.
  - exists false. split; [done|]. exists s. split_and!; [done..|].
    by intros k ?%elem_of_nil.
  - assert (∀ k', k' ∈ l → k' ∈ U) as HUl
      by (intros k' Hk'; apply HU; by right).
    destruct (decide (k ∉ visited s)) as [Hfresh|Hseen].
    + destruct (dfs_spec fuel k s) as (found & s1 & -> & Hpost).
      { split_and!; [apply HU; left|done..| |].
        - intros r Hr. rewrite Hst in Hr. set_solver.
        - etrans; [|exact Hfuel]. apply subseteq_size. set_solver. }
      simpl. destruct found; [by exists true|].
      destruct Hpost as (Hst1 & Hv1 & Hk1 & Hinv1).
      destruct (IH s1) as (found & -> & Hpost2); [done|congruence|done|].
      exists found. split; [done|]. destruct found; [done|].
      destruct Hpost2 as (s2 & Hst2 & Hv2 & Hinv2 & Hall).
      exists s2. split_and!; [done|set_solver|done|].
      intros k' [->|Hk']%elem_of_cons; [set_solver|by apply Hall].
    + apply dec_stable in Hseen.
      destruct (IH s) as (found & -> & Hpost2); [done..|].
      exists found. split; [done|]. destruct found; [done|].
      destruct Hpost2 as (s2 & Hst2 & Hv2 & Hinv2 & Hall).
      exists s2. split_and!; [done..|].
      intros k' [->|Hk']%elem_of_cons; [set_solver|by apply Hall].
Qed.

End dfs_correct.

(** The adjacency lists that [build_graph] returns. *)
Lemma build_graph_spec tasks dependencies :
  (∀ p s, (p, s) ∈ edges_of dependencies → p ∈ Task.id <$> tasks) →
  ∃ graph,
    build_graph tasks dependencies = Return graph
    ∧ dict_wf graph
    ∧ PyDict.keys graph
      = PyDict.keys (PyDict.comprehension Task.id (λ _, @nil Z) tasks)
    ∧ ∀ k, k ∈ Task.id <$> tasks →
        PyDict.items graph !! k
        = Some (successors (edges_of dependencies) k).
Proof.
  unfold build_graph.
  induction dependencies as [|d deps IH] using rev_ind; intros Hpred.
  - eexists. split; [done|]. split; [apply comprehension_wf|].
    split; [done|]. intros k Hk. by apply comprehension_lookup_const.
  - destruct IH as (graph & Hgraph & Hwf & Hkeys & Hlook).
    { intros p s Hps. apply (Hpred p s). unfold edges_of.
      rewrite fmap_app. apply elem_of_app. by left. }
    assert (TaskDependency.predecessor_task_id d ∈ Task.id <$> tasks) as Hd.
    { apply (Hpred _ (TaskDependency.successor_task_id d)).
      apply elem_of_edges_of. exists d. split; [|done].
      apply elem_of_app. right. left. }
    rewrite for_each_app, Hgraph. simpl.
    unfold PyDict.getitem. rewrite (Hlook _ Hd). simpl.
    eexists. split; [done|]. split; [by apply dict_wf_setitem|]. split.
    + rewrite <-Hkeys. apply keys_setitem_present. rewrite (Hlook _ Hd). eauto.
    + intros k Hk. simpl. unfold edges_of. rewrite fmap_app. simpl.
      rewrite successors_snoc, lookup_insert. simpl.
      case_decide as Hkd.
      * by subst k.
      * rewrite app_nil_r. by apply Hlook.
Qed.

(** The search runs on the edges of the project. *)
Lemma build_graph_neighbor tasks dependencies graph :
  (∀ p s, (p, s) ∈ edges_of dependencies → p ∈ Task.id <$> tasks) →
  build_graph tasks dependencies = Return graph →
  ∀ x y, neighbor graph x y ↔ edge (edges_of dependencies) x y.
Proof.
  intros Hpred Hgraph x y.
  destruct (build_graph_spec tasks dependencies Hpred)
    as (graph' & Hgraph' & Hwf & Hkeys & Hlook).
  rewrite Hgraph in Hgraph'. injection Hgraph' as <-.
  unfold neighbor, edge, PyDict.get.
  destruct (decide (x ∈ Task.id <$> tasks)) as [Hx|Hx].
  - rewrite (Hlook _ Hx). simpl. apply elem_of_successors.
  - assert (PyDict.items graph !! x = None) as ->.
    { apply eq_None_not_Some. intros Hs. apply Hx.
      apply (comprehension_keys Task.id (λ _, @nil Z)).
      rewrite <-Hkeys. by apply Hwf. }
    simpl. split; [by intros ?%elem_of_nil|].
    intros Hxy. exfalso. by apply Hx, (Hpred x y).
Qed.

(** [has_cycle] always returns, and returns [True] exactly on the graphs
    with a cycle. *)
Lemma has_cycle_spec db project_id :
  ∃ found,
    has_cycle db project_id = Return found
    ∧ (found = true ↔ cyclic (edges db project_id)).
Proof.
  unfold has_cycle.
  set (tasks := query_tasks db project_id).
  set (dependencies := query_dependencies db project_id).
  assert (∀ p s, (p, s) ∈ edges_of dependencies → p ∈ Task.id <$> tasks)
    as Hpred by apply edges_pred_in_project.
  destruct (build_graph_spec tasks dependencies Hpred)
    as (graph & Hgraph & Hwf & Hkeys & Hlook).
  pose proof (build_graph_neighbor _ _ _ Hpred Hgraph) as Hnb.
  rewrite Hgraph. simpl.
  set (U := (list_to_set (PyDict.keys graph) ∪
             list_to_set (edges_of dependencies).*2 : gset Z)).
  destruct (has_cycle_from_spec graph U) with
    (fuel := (length tasks + length dependencies)%nat)
    (task_ids := PyDict.keys graph) (s := DfsState ∅ ∅)
    as (found & -> & Hpost).
  - intros x y Hxy%Hnb. unfold U, edge in *.
    apply elem_of_union. right. apply elem_of_list_to_set.
    by apply (list_elem_of_fmap_2 snd) in Hxy.
  - unfold U. etrans; [apply size_union_le|].
    pose proof (size_list_to_set_le (PyDict.keys graph)).
    pose proof (size_list_to_set_le (edges_of dependencies).*2) as Hle.
    unfold edges_of in Hle. rewrite !length_fmap in Hle.
    pose proof (comprehension_length Task.id (λ _, @nil Z) tasks).
    rewrite <-Hkeys in *. unfold edges_of. lia.
  - intros k Hk. unfold U. set_solver.
  - done.
  - split_and!; simpl; [set_solver|..].
    + intros x y [Hx _]. set_solver.
    + intros x [Hx _]. set_solver.
  - exists found. split; [done|].
    unfold cyclic, edges. fold dependencies.
    destruct found.
    + split; [|done]. intros _. destruct Hpost as (x & Hx). exists x.
      by apply (tc_iff _ _ _ _ Hnb).
    + split; [done|]. intros (x & Hx). exfalso.
      destruct Hpost as (s' & Hst & _ & Hinv & Hall).
      apply (tc_iff _ _ _ _ Hnb) in Hx.
      destruct Hinv as (_ & _ & Hac). apply (Hac x); [|done].
      split; [|set_solver]. apply Hall.
      apply tc_first_step in Hx as (y & Hy & _).
      apply Hwf. unfold neighbor, PyDict.get in Hy.
      destruct (PyDict.items graph !! x); [eauto|].
      by apply elem_of_nil in Hy.
Qed.

(** ** Loops that cannot raise *)

Lemma map_each_pure {A B : Type} (f : A → outcome B) (g : A → B)
    (l : list A) :
  (∀ x, x ∈ l → f x = Return (g x)) → map_each f l = Return (g <$> l).
Proof.
  induction l as [|x l IH]; intros H; simpl; [done|].
  rewrite (H x) by left. simpl. rewrite IH; [done|].
  intros y Hy. apply H. by right.
Qed.

Lemma filter_each_pure {A : Type} (p : A → outcome bool) (P : A → Prop)
    `{∀ x, Decision (P x)} (l : list A) :
  (∀ x, x ∈ l → p x = Return (bool_decide (P x))) →
  filter_each p l = Return (filter P l).
Proof.
  induction l as [|x l IH]; intros Hp; simpl; [done|].
  rewrite (Hp x) by left. simpl. rewrite IH.
  - simpl. rewrite filter_cons. unfold mret, outcome_ret.
    destruct (decide (P x)) as [HP|HP].
    + by rewrite bool_decide_eq_true_2.
    + by rewrite bool_decide_eq_false_2.
  - intros y Hy. apply Hp. by right.
Qed.

(** ** The stable sort *)

Lemma insert_by_key_perm x l : insert_by_key x l ≡ₚ x :: l.
Proof.
  induction l as [|y l IH]; simpl; [done|].
  case_decide; [done|]. rewrite IH. apply Permutation_swap.
Qed.

Lemma stable_sort_perm l : stable_sort l ≡ₚ l.
Proof.
  induction l as [|x l IH]; simpl; [done|].
  by rewrite insert_by_key_perm, IH.
Qed.

Lemma insert_by_key_head (x : Z * Z) l (y : Z * Z) :
  Forall (λ z : Z * Z, y.1 ≤ z.1) (x :: l) →
  Forall (λ z : Z * Z, y.1 ≤ z.1) (insert_by_key x l).
Proof. intros H. by rewrite insert_by_key_perm. Qed.

(** The first element of the sorted list has the least key. *)
Lemma insert_by_key_least (x : Z * Z) l :
  (∀ c rest, l = c :: rest → Forall (λ z : Z * Z, c.1 ≤ z.1) rest) →
  ∀ c rest, insert_by_key x l = c :: rest →
            Forall (λ z : Z * Z, c.1 ≤ z.1) rest.
Proof.
  destruct l as [|y l]; simpl; intros Hl c rest.
  - intros [= <- <-]. constructor.
  - specialize (Hl y l eq_refl). case_decide as Hxy.
    + intros [= <- <-]. constructor; [done|].
      eapply Forall_impl; [exact Hl|]. simpl. intros z ?. lia.
    + intros [= <- <-]. apply insert_by_key_head.
      constructor; [lia|done].
Qed.

Lemma stable_sort_least l (c : Z * Z) rest :
  stable_sort l = c :: rest → ∀ z : Z * Z, z ∈ l → c.1 ≤ z.1.
Proof.
  intros Hs.
  assert (Forall (λ z : Z * Z, c.1 ≤ z.1) rest) as Hrest.
  { revert c rest Hs. induction l as [|x l IH]; simpl; [done|].
    by apply insert_by_key_least. }
  intros z Hz. rewrite <-(stable_sort_perm l), Hs in Hz.
  apply elem_of_cons in Hz as [->|Hz]; [done|].
  by eapply (proj1 (Forall_forall _ _) Hrest).
Qed.

(** ** Counting *)

Lemma occurrences_nonneg k l : 0 ≤ occurrences k l.
Proof. unfold occurrences. lia. Qed.

Lemma occurrences_cons k x l :
  occurrences k (x :: l)
  = (if decide (x = k) then 1 else 0) + occurrences k l.
Proof.
  unfold occurrences. rewrite filter_cons. case_decide; simpl; lia.
Qed.

Lemma occurrences_zero k l : occurrences k l = 0 ↔ k ∉ l.
Proof.
  induction l as [|x l IH].
  - split; [intros _; apply not_elem_of_nil|done].
  - rewrite occurrences_cons, not_elem_of_cons.
    pose proof (occurrences_nonneg k l). case_decide; subst.
    + split; [lia|]. by intros [? _].
    + rewrite <-IH. split; [intros; split; [done|lia]|]. intros [_ ?]. lia.
Qed.

Lemma occurrences_pos k l : k ∈ l → 0 < occurrences k l.
Proof.
  intros Hk. pose proof (occurrences_nonneg k l).
  destruct (decide (occurrences k l = 0)) as [H0|]; [|lia].
  by apply occurrences_zero in H0.
Qed.

(** Placing [c] removes the edges out of [c] from the remaining graph. *)
Lemma indegree_remaining_snoc E l c k :
  c ∉ l →
  indegree (remaining E (l ++ [c])) k
  = indegree (remaining E l) k - occurrences k (successors E c).
Proof.
  intros Hc. unfold indegree, remaining, occurrences, successors.
  induction E as [|[p s] E IH]; [done|].
  rewrite !filter_cons. simpl.
  destruct (decide (p ∉ l ++ [c])) as [Hp|Hp];
    destruct (decide (p ∉ l)) as [Hl|Hl];
    destruct (decide (p = c)) as [->|Hpc]; csimpl;
    rewrite ?filter_cons; simpl; try (destruct (decide (s = k))); simpl;
    try lia; exfalso; set_solver.
Qed.

Lemma successors_remaining E l c :
  c ∉ l → successors (remaining E l) c = successors E c.
Proof.
  intros Hc. unfold successors, remaining. f_equal.
  rewrite list_filter_filter. apply list_filter_iff.
  intros [p s]. simpl. split; [by intros [? _]|]. intros ->. done.
Qed.

Lemma occurrences_successors_le E k c :
  occurrences k (successors E c) ≤ indegree E k.
Proof.
  unfold occurrences, successors, indegree.
  induction E as [|[p s] E IH]; [done|].
  rewrite !filter_cons. simpl.
  destruct (decide (p = c)); destruct (decide (s = k)); csimpl;
    rewrite ?filter_cons; simpl; try (destruct (decide (s = k)));
    simpl; try lia; done.
Qed.

(** ** The inner loop of Kahn's algorithm *)

(** Releasing the neighbors [l] subtracts from each counter the number of
    occurrences of its key in [l] and appends to the queue the keys whose
    counter reaches zero, once each. *)
Lemma release_loop l D Q :
  dict_wf D →
  (∀ n, n ∈ l → n ∈ PyDict.keys D) →
  ∃ D' new,
    for_each release_neighbor (D, Q) l = Return (D', Q ++ new)
    ∧ dict_wf D'
    ∧ PyDict.keys D' = PyDict.keys D
    ∧ (∀ k v, PyDict.items D !! k = Some v →
         PyDict.items D' !! k = Some (v - occurrences k l))
    ∧ (∀ k, k ∈ new → k ∈ l)
    ∧ ((∀ k v, k ∈ l → PyDict.items D !! k = Some v →
          occurrences k l ≤ v) →
       NoDup new
       ∧ ∀ k, k ∈ new ↔ k ∈ l ∧ PyDict.items D' !! k = Some 0).
Proof.
  revert D Q. induction l as [|n l IH]; intros D Q Hwf Hkeys.
  - exists D, []. rewrite app_nil_r. split_and!; try done.
    + intros k v ->. f_equal. unfold occurrences. simpl. lia.
    + intros _. split; [constructor|]. intros k. split.
      * by intros ?%elem_of_nil.
      * by intros [?%elem_of_nil _].
  - assert (n ∈ PyDict.keys D) as Hn by (apply Hkeys; left).
    pose proof Hn as [v Hv]%Hwf.
    set (D1 := PyDict.setitem n (v - 1) D).
    set (Q1 := if decide (v - 1 = 0) then Q ++ [n] else Q).
    assert (release_neighbor (D, Q) n = Return (D1, Q1)) as Hstep.
    { unfold release_neighbor, PyDict.getitem. simpl. rewrite Hv. simpl.
      by rewrite lookup_insert_eq. }
    assert (PyDict.keys D1 = PyDict.keys D) as Hkeys1
      by (apply keys_setitem_present; eauto).
    destruct (IH D1 Q1) as (D' & new' & Hloop & Hwf' & Hkeys' & Hval & Hsub & Hnew).
    { by apply dict_wf_setitem. }
    { intros k Hk. rewrite Hkeys1. apply Hkeys. by right. }
    exists D', ((if decide (v - 1 = 0) then [n] else []) ++ new').
    split.
    { simpl. rewrite Hstep. simpl. rewrite Hloop. unfold Q1.
      case_decide; by rewrite <-?app_assoc. }
    split; [done|]. split; [congruence|]. split.
    { intros k vk Hk. rewrite occurrences_cons.
      destruct (decide (n = k)) as [->|Hnk].
      - rewrite (Hval k (v - 1)).
        + f_equal. rewrite Hv in Hk. injection Hk as <-. lia.
        + unfold D1. simpl. by rewrite lookup_insert_eq.
      - rewrite (Hval k vk).
        + f_equal; lia.
        + unfold D1. simpl. by rewrite lookup_insert_ne. }
    split.
    { intros k [Hk|Hk]%elem_of_app; [|right; by apply Hsub].
      case_decide; [|by apply elem_of_nil in Hk].
      apply list_elem_of_singleton in Hk as ->. left. }
    intros Hle.
    destruct Hnew as [Hnd Hiff].
    { intros k v1 Hk Hk1.
      unfold D1 in Hk1. simpl in Hk1. rewrite lookup_insert in Hk1.
      case_decide as Hnk.
      - subst k. injection Hk1 as <-.
        pose proof (Hle n v) as Hle'. rewrite occurrences_cons in Hle'.
        rewrite decide_True in Hle' by done.
        assert (n ∈ n :: l) as Hin by left. specialize (Hle' Hin Hv). lia.
      - pose proof (Hle k v1) as Hle'. rewrite occurrences_cons in Hle'.
        rewrite decide_False in Hle' by done.
        apply Hle'; [by right|done]. }
    assert (PyDict.items D' !! n = Some (v - 1 - occurrences n l)) as Hn'.
    { apply Hval. unfold D1. simpl. by rewrite lookup_insert_eq. }
    pose proof (Hle n v) as Hlen. rewrite occurrences_cons in Hlen.
    rewrite decide_True in Hlen by done.
    assert (n ∈ n :: l) as Hin by left. specialize (Hlen Hin Hv).
    pose proof (occurrences_nonneg n l) as Hnn.
    case_decide as Hv1.
    + assert (occurrences n l = 0) as Hocc by lia.
      pose proof Hocc as Hnl%occurrences_zero.
      split.
      * simpl. constructor; [|done]. intros Hc. by apply Hnl, Hsub.
      * intros k. simpl. rewrite elem_of_cons, Hiff, elem_of_cons.
        split.
        -- intros [->|[Hk Hk0]]; [|auto].
           split; [by left|]. rewrite Hn'. f_equal. lia.
        -- intros [[->|Hk] Hk0]; auto.
    + split; [done|]. intros k. simpl. rewrite Hiff, elem_of_cons.
      split; [intros [? ?]; auto|].
      intros [[->|Hk] Hk0]; [|done].
      destruct (decide (n ∈ l)) as [Hnl|Hnl]; [done|].
      apply occurrences_zero in Hnl. rewrite Hn' in Hk0.
      injection Hk0 as Hk0. lia.
Qed.

(** ** The loop of Kahn's algorithm *)

Section kahn_correct.
Context (E : list (Z * Z)) (ids : list Z).
Context (task_map : PyDict.t Task.t) (graph : PyDict.t (list Z)).
Context (Hpred : ∀ p s, (p, s) ∈ E → p ∈ ids).
Context (Hsucc : ∀ p s, (p, s) ∈ E → s ∈ ids).
Context (Hgraph : ∀ k, k ∈ ids →
                       PyDict.items graph !! k = Some (successors E k)).
Context (Hmap : ∀ k, k ∈ ids →
                     ∃ t, PyDict.items task_map !! k = Some t ∧ Task.id t = k).

(** [queue.sort(key=...)] permutes the queue and brings a task of highest
    priority to the front. *)
Lemma sort_queue q :
  (∀ k, k ∈ q → k ∈ ids) →
  ∃ sorted,
    sort_by (λ tid, task ← PyDict.getitem tid task_map;
                    mret (- Task.priority task)) q = Return sorted
    ∧ sorted ≡ₚ q
    ∧ ∀ c rest, sorted = c :: rest →
        ∀ k, k ∈ q → sort_key task_map c ≤ sort_key task_map k.
Proof.
  intros Hq. unfold sort_by.
  rewrite (map_each_pure _ (λ x, (sort_key task_map x, x))).
  - simpl. eexists. split; [done|].
    assert (((λ x, (sort_key task_map x, x)) <$> q).*2 = q) as Hsnd.
    { rewrite <-list_fmap_compose. apply list_fmap_id. }
    split.
    + by rewrite stable_sort_perm, Hsnd.
    + intros c rest Hs k Hk.
      destruct (stable_sort ((λ x, (sort_key task_map x, x)) <$> q))
        as [|[kc c'] rest'] eqn:Hsorted; [done|].
      simpl in Hs. injection Hs as -> _.
      assert ((kc, c) ∈ (λ x, (sort_key task_map x, x)) <$> q) as Hc.
      { rewrite <-stable_sort_perm, Hsorted. left. }
      apply list_elem_of_fmap in Hc as (x & [= -> ->] & _).
      apply (stable_sort_least _ _ _ Hsorted (sort_key task_map k, k)).
      by apply (list_elem_of_fmap_2 (λ x, (sort_key task_map x, x))).
  - intros x Hx. destruct (Hmap x (Hq x Hx)) as (t & Ht & _).
    unfold PyDict.getitem, sort_key. by rewrite Ht.
Qed.

Lemma respects_snoc l c :
  respects E l → (∀ p, (p, c) ∈ E → p ∈ l) → respects E (l ++ [c]).
Proof.
  intros Hl Hc j s p Hj Hps.
  destruct (decide (j < length l)%nat) as [Hlt|Hge].
  - rewrite lookup_app_l in Hj by done.
    destruct (Hl j s p Hj Hps) as (i & Hi & Hp). exists i. split; [done|].
    rewrite lookup_app_l; [done|lia].
  - rewrite lookup_app_r in Hj by lia.
    apply list_lookup_singleton_Some in Hj as [Hj <-].
    apply Hc, list_elem_of_lookup in Hps as [i Hi]. exists i.
    pose proof (lookup_lt_Some _ _ _ Hi). split; [lia|].
    by rewrite lookup_app_l.
Qed.

(** One iteration keeps the invariant and places a task of the queue whose
    priority is the highest of the queue. *)
Lemma kahn_step_spec st :
  kahn_inv E ids task_map st →
  queue st ≠ [] →
  ∃ st' task,
    kahn_step task_map graph st = Return st'
    ∧ kahn_inv E ids task_map st'
    ∧ sorted_tasks st' = sorted_tasks st ++ [task]
    ∧ Task.id task ∈ queue st
    ∧ ∀ k, k ∈ queue st →
        sort_key task_map (Task.id task) ≤ sort_key task_map k.
Proof.
  intros (Hwf & Hkeys & Hnd & Hdeg & Hzero & Hresp & Hfrom) Hne.
  assert (∀ k, k ∈ queue st → k ∈ ids) as Hq.
  { intros k Hk. apply Hzero, elem_of_app. by right. }
  destruct (sort_queue (queue st) Hq) as (sorted & Hsort & Hperm & Hleast).
  destruct sorted as [|c rest].
  { apply Permutation_nil_l in Hperm. by destruct Hne. }
  specialize (Hleast c rest eq_refl).
  assert (c ∈ queue st) as Hcq by (rewrite <-Hperm; left).
  destruct (Hmap c (Hq c Hcq)) as (task & Htask & Hid).
  assert (c ∉ placed st) as Hcp.
  { apply NoDup_app in Hnd as (_ & Hdisj & _). intros Hc.
    by apply (Hdisj c). }
  set (succs := successors E c).
  destruct (release_loop succs (in_degree st) rest Hwf)
    as (D' & new & Hloop & Hwf' & Hkeys' & Hval & Hsub & Hnew).
  { intros n Hn%elem_of_successors. by apply Hkeys, (Hsucc c). }
  destruct Hnew as [Hndnew Hnewiff].
  { intros k v Hk%elem_of_successors Hv.
    rewrite (Hdeg k) in Hv by by apply (Hsucc c).
    injection Hv as <-. unfold succs.
    rewrite <-(successors_remaining E (placed st) c Hcp).
    apply occurrences_successors_le. }
  set (st' := KahnState D' (rest ++ new) (sorted_tasks st ++ [task])).
  assert (placed st' = placed st ++ [c]) as Hplaced.
  { unfold placed, st'. simpl. rewrite fmap_app. simpl. by rewrite Hid. }
  assert (∀ k, k ∈ ids →
            PyDict.items D' !! k
            = Some (indegree (remaining E (placed st ++ [c])) k)) as Hdeg'.
  { intros k Hk. rewrite (Hval k _ (Hdeg k Hk)).
    by rewrite indegree_remaining_snoc. }
  assert (∀ k, k ∈ new → k ∉ placed st ++ queue st) as Hfresh.
  { intros k Hk Hold. pose proof Hk as [Hks Hk0]%Hnewiff.
    apply Hzero in Hold as [Hkid Hz].
    rewrite (Hdeg' k Hkid), indegree_remaining_snoc in Hk0 by done.
    injection Hk0 as Hk0. apply occurrences_pos in Hks.
    fold succs in Hk0. lia. }
  assert ((placed st ++ [c]) ++ rest ++ new
          ≡ₚ (placed st ++ queue st) ++ new) as Hall.
  { rewrite <-Hperm, <-!app_assoc. done. }
  exists st', task. split.
  { unfold kahn_step. rewrite Hsort. simpl.
    unfold PyDict.getitem. rewrite Htask, (Hgraph c (Hq c Hcq)). simpl.
    fold succs. by rewrite Hloop. }
  split; [|by rewrite Hid].
  unfold kahn_inv. rewrite Hplaced. simpl.
  split; [done|]. split; [by rewrite Hkeys'|]. split.
  { rewrite Hall. apply NoDup_app. split; [done|]. split; [|done].
    intros k Hk Hknew. by apply (Hfresh k). }
  split; [done|]. split.
  { intros k. rewrite Hall, elem_of_app. split.
    - intros [Hold|Hk].
      + apply Hzero in Hold as [Hkid Hz]. split; [done|].
        rewrite indegree_remaining_snoc by done.
        pose proof (occurrences_nonneg k succs) as Ho1.
        pose proof (indegree_nonneg (remaining E (placed st ++ [c])) k) as Ho2.
        rewrite indegree_remaining_snoc in Ho2 by done.
        fold succs in Ho2 |- *. lia.
      + pose proof Hk as [Hks%elem_of_successors Hk0]%Hnewiff.
        assert (k ∈ ids) as Hkid by by apply (Hsucc c).
        split; [done|]. rewrite (Hdeg' k Hkid) in Hk0. by injection Hk0.
    - intros [Hkid Hz].
      destruct (decide (indegree (remaining E (placed st)) k = 0)) as [Hz0|Hz0].
      + left. by apply Hzero.
      + right. apply Hnewiff. rewrite (Hdeg' k Hkid), Hz. split; [|done].
        rewrite indegree_remaining_snoc in Hz by done.
        destruct (decide (k ∈ succs)) as [|Hks]; [done|].
        apply occurrences_zero in Hks. fold succs in Hz. lia. }
  split.
  { apply respects_snoc; [done|]. intros p Hpc.
    assert (c ∈ placed st ++ queue st) as Hc
      by (apply elem_of_app; by right).
    apply Hzero in Hc as [_ Hz].
    destruct (decide (p ∈ placed st)) as [|Hp]; [done|]. exfalso.
    eapply (proj1 (indegree_zero _ _) Hz p).
    by apply list_elem_of_filter. }
  apply Forall_app. split; [done|]. constructor; [|done]. by rewrite Hid.
Qed.

(** The placed and queued tasks are distinct tasks of the project. *)
Lemma kahn_inv_length st :
  kahn_inv E ids task_map st →
  (length (placed st) + length (queue st) ≤ length ids)%nat.
Proof.
  intros (_ & _ & Hnd & _ & Hzero & _).
  rewrite <-length_app. apply submseteq_length, NoDup_submseteq; [done|].
  intros k Hk. by apply Hzero.
Qed.

(** The loop runs to an empty queue within [length ids] iterations. *)
Lemma kahn_loop_spec fuel st :
  kahn_inv E ids task_map st →
  (length ids ≤ fuel + length (placed st))%nat →
  ∃ st',
    kahn_loop fuel task_map graph st = Return (sorted_tasks st')
    ∧ kahn_reachable task_map graph st st'
    ∧ kahn_inv E ids task_map st'
    ∧ queue st' = [].
Proof.
  revert st. induction fuel as [|fuel IH]; intros st Hinv Hfuel.
  - pose proof (kahn_inv_length st Hinv) as Hlen.
    destruct (queue st) as [|c q] eqn:Hq; [|simpl in Hlen; lia].
    exists st. simpl. rewrite Hq. split; [done|]. split; [apply rtc_refl|done].
  - destruct (queue st) as [|c q] eqn:Hq.
    + exists st. simpl. rewrite Hq. split; [done|].
      split; [apply rtc_refl|done].
    + destruct (kahn_step_spec st Hinv) as (st1 & task & Hstep & Hinv1 & Hsorted & _).
      { by rewrite Hq. }
      destruct (IH st1 Hinv1) as (st' & Hloop & Hreach & Hinv' & Hq').
      { unfold placed. rewrite Hsorted, fmap_app, length_app. simpl.
        unfold placed in Hfuel. lia. }
      exists st'. simpl. rewrite Hq, Hstep. simpl.
      split; [done|]. split; [|done]. by eapply rtc_l.
Qed.

Lemma indegree_nonzero F s : indegree F s ≠ 0 → ∃ p, (p, s) ∈ F.
Proof.
  unfold indegree. intros Hn.
  destruct (filter (λ e, e.2 = s) F) as [|[p s'] l] eqn:Hf; [done|].
  assert ((p, s') ∈ filter (λ e, e.2 = s) F) as Hin by (rewrite Hf; left).
  apply list_elem_of_filter in Hin as [Hs Hin]. simpl in Hs. subst s'.
  by exists p.
Qed.

(** On an acyclic graph an empty queue means that every task is placed:
    a task that is not placed has a predecessor that is not placed, and a
    finite acyclic graph has no infinite chain of predecessors. *)
Lemma kahn_complete st :
  kahn_inv E ids task_map st →
  queue st = [] →
  acyclic E →
  ∀ k, k ∈ ids → k ∈ placed st.
Proof.
  intros (_ & _ & _ & _ & Hzero & _) Hq Hacyclic k.
  rewrite Hq in Hzero. setoid_rewrite app_nil_r in Hzero.
  assert (∀ x y, tc (flip (edge E)) x y → tc (edge E) y x) as Hflip.
  { intros x y Hxy. induction Hxy as [x y Hxy|x y z Hxy _ IH].
    - by apply tc_once.
    - eapply tc_r; [exact IH|exact Hxy]. }
  assert (sn (flip (edge E)) k) as Hsn.
  { apply tc_finite_sn.
    - intros x Hx. by apply (Hacyclic x), Hflip.
    - exists ids. intros y Hy.
      induction Hy as [x y Hxy|x y z _ _ IH]; [|done].
      by apply (Hpred y x). }
  induction Hsn as [k _ IH]. intros Hk.
  destruct (decide (k ∈ placed st)) as [|Hnot]; [done|]. exfalso.
  destruct (indegree_nonzero (remaining E (placed st)) k) as (p & Hp).
  { intros Hz. apply Hnot, Hzero. by split. }
  apply list_elem_of_filter in Hp as [Hpl Hpk]. simpl in Hpl.
  apply Hpl, IH; [done|]. by apply (Hpred p k).
Qed.

(** A task on a cycle is never placed. *)
Lemma respects_tc l p s j :
  respects E l → tc (edge E) p s → l !! j = Some s →
  ∃ i, (i < j)%nat ∧ l !! i = Some p.
Proof.
  intros Hl Hps. revert j.
  induction Hps as [p s Hps|p y s Hpy _ IH]; intros j Hj.
  - by apply (Hl j s p).
  - destruct (IH j Hj) as (i & Hi & Hy).
    destruct (Hl i y p Hy Hpy) as (i' & Hi' & Hp).
    exists i'. split; [lia|done].
Qed.

Lemma kahn_cycle_not_placed st x :
  kahn_inv E ids task_map st → tc (edge E) x x → x ∉ placed st.
Proof.
  intros (_ & _ & Hnd & _ & _ & Hresp & _) Hx Hin.
  apply NoDup_app in Hnd as (Hnd & _).
  apply list_elem_of_lookup in Hin as [j Hj].
  destruct (respects_tc _ x x j Hresp Hx Hj) as (i & Hi & Hi').
  pose proof (NoDup_lookup _ _ _ _ Hnd Hj Hi'). lia.
Qed.

End kahn_correct.

(** ** The set-up of Kahn's algorithm *)

Lemma for_each_no_OutOfFuel {A B : Type} (f : B → A → outcome B)
    (acc : B) (l : list A) :
  (∀ b x, f b x ≠ OutOfFuel) → for_each f acc l ≠ OutOfFuel.
Proof.
  intros Hf. revert acc. induction l as [|x l IH]; intros acc; simpl; [done|].
  pose proof (Hf acc x). destruct (f acc x); simpl; [apply IH|done..].
Qed.

Lemma count_dependency_no_OutOfFuel acc dep :
  count_dependency acc dep ≠ OutOfFuel.
Proof.
  unfold count_dependency, PyDict.getitem.
  destruct (PyDict.items acc.1 !! _); simpl; [|done].
  by destruct (PyDict.items acc.2 !! _).
Qed.

Lemma remaining_nil E : remaining E [] = E.
Proof.
  unfold remaining. induction E as [|e E IH]; [done|].
  rewrite filter_cons_True; [by rewrite IH|]. apply not_elem_of_nil.
Qed.

Lemma key_order_elem tasks k : k ∈ key_order tasks ↔ k ∈ Task.id <$> tasks.
Proof. apply comprehension_keys. Qed.

Lemma task_map_of_lookup tasks k :
  k ∈ key_order tasks →
  ∃ t, PyDict.items (task_map_of tasks) !! k = Some t
       ∧ Task.id t = k ∧ t ∈ tasks.
Proof.
  intros Hk%key_order_elem.
  apply (comprehension_keys Task.id (λ task, task)), comprehension_wf in Hk
    as [t Ht].
  exists t. split; [done|].
  apply comprehension_lookup_Some in Ht as (x & Hx & <- & <-). done.
Qed.

Section count_loop.
Context (tasks : list Task.t).

Lemma counted_nil : counted tasks [] (PyDict.comprehension Task.id (λ _, []) tasks,
     PyDict.comprehension Task.id (λ _, 0) tasks).
Proof.
  split; [apply comprehension_wf|]. split; [apply comprehension_wf|].
  split; [done|]. split; intros k Hk%key_order_elem; simpl.
  - by apply comprehension_lookup_const.
  - by apply (comprehension_lookup_const Task.id 0).
Qed.

Lemma counted_snoc dependencies acc d :
  counted tasks dependencies acc →
  TaskDependency.predecessor_task_id d ∈ key_order tasks →
  TaskDependency.successor_task_id d ∈ key_order tasks →
  ∃ acc', count_dependency acc d = Return acc'
          ∧ counted tasks (dependencies ++ [d]) acc'.
Proof.
  intros (Hwf1 & Hwf2 & Hkeys & Hsucc & Hdeg) Hp Hs.
  unfold count_dependency, PyDict.getitem.
  rewrite (Hsucc _ Hp), (Hdeg _ Hs). simpl. eexists. split; [done|].
  split; [by apply dict_wf_setitem|]. split; [by apply dict_wf_setitem|].
  simpl fst. simpl snd. split.
  { rewrite <-Hkeys. apply keys_setitem_present. rewrite (Hdeg _ Hs). eauto. }
  unfold edges_of. rewrite fmap_app. simpl.
  split; intros k Hk; simpl; rewrite lookup_insert.
  - rewrite successors_snoc. simpl. case_decide as Hkd.
    + by subst k.
    + rewrite app_nil_r. by apply Hsucc.
  - rewrite indegree_snoc. simpl. case_decide as Hkd.
    + by subst k.
    + rewrite Z.add_0_r. by apply Hdeg.
Qed.

Lemma count_loop_returns dependencies :
  (∀ p s, (p, s) ∈ edges_of dependencies →
          p ∈ key_order tasks ∧ s ∈ key_order tasks) →
  ∃ acc, for_each count_dependency (PyDict.comprehension Task.id (λ _, []) tasks,
     PyDict.comprehension Task.id (λ _, 0) tasks) dependencies = Return acc
         ∧ counted tasks dependencies acc.
Proof.
  induction dependencies as [|d deps IH] using rev_ind; intros Hin.
  - eexists. split; [done|apply counted_nil].
  - destruct IH as (acc & Hacc & Hcounted).
    { intros p s Hps. apply Hin. unfold edges_of.
      rewrite fmap_app. apply elem_of_app. by left. }
    destruct (Hin (TaskDependency.predecessor_task_id d)
                  (TaskDependency.successor_task_id d)) as [Hp Hs].
    { apply elem_of_edges_of. exists d. split; [|done].
      apply elem_of_app. right. left. }
    destruct (counted_snoc deps acc d Hcounted Hp Hs) as (acc' & Hstep & Hc').
    exists acc'. split; [|done]. rewrite for_each_app, Hacc. simpl.
    by rewrite Hstep.
Qed.

(** The loop returns only if every successor is a task of the project. *)
Lemma count_loop_Return dependencies acc :
  (∀ p s, (p, s) ∈ edges_of dependencies → p ∈ key_order tasks) →
  for_each count_dependency (PyDict.comprehension Task.id (λ _, []) tasks,
     PyDict.comprehension Task.id (λ _, 0) tasks) dependencies = Return acc →
  ∀ p s, (p, s) ∈ edges_of dependencies → s ∈ key_order tasks.
Proof.
  revert acc. induction dependencies as [|d deps IH] using rev_ind;
    intros acc Hpred Hret p s Hps.
  - by apply elem_of_nil in Hps.
  - rewrite for_each_app in Hret.
    apply bind_Return in Hret as (acc1 & Hacc1 & Hstep).
    assert (∀ p s, (p, s) ∈ edges_of deps → p ∈ key_order tasks) as Hpred1.
    { intros p' s' Hps'. apply (Hpred p' s'). unfold edges_of.
      rewrite fmap_app. apply elem_of_app. by left. }
    pose proof (IH acc1 Hpred1 Hacc1) as Hsucc1.
    unfold edges_of in Hps. rewrite fmap_app in Hps.
    apply elem_of_app in Hps as [Hps|Hps]; [by apply (Hsucc1 p s)|].
    apply list_elem_of_singleton in Hps as [= -> ->].
    destruct (count_loop_returns deps) as (acc1' & Hacc1' & Hc).
    { intros p' s' Hps'. split; [by apply (Hpred1 p' s')|by apply (Hsucc1 p' s')]. }
    rewrite Hacc1 in Hacc1'. injection Hacc1' as <-.
    destruct Hc as (_ & Hwf2 & Hkeys & _).
    simpl in Hstep. unfold count_dependency, PyDict.getitem in Hstep.
    destruct (PyDict.items acc1.1 !! _); simpl in Hstep; [|done].
    destruct (PyDict.items acc1.2 !! TaskDependency.successor_task_id d)
      eqn:Hs; simpl in Hstep; [|done].
    rewrite <-Hkeys. apply Hwf2. by rewrite Hs.
Qed.

End count_loop.

(** ** [topological_sort] as a whole *)

(** The state in which the loop is entered: the queue holds the tasks
    without a predecessor, in the order of the dictionary. *)
Lemma kahn_init_cases tasks dependencies :
  (∀ p s, (p, s) ∈ edges_of dependencies → p ∈ key_order tasks) →
  ((∀ p s, (p, s) ∈ edges_of dependencies → s ∈ key_order tasks)
   ∧ ∃ graph st0,
       kahn_init tasks dependencies = Return (graph, st0)
       ∧ (∀ k, k ∈ key_order tasks →
            PyDict.items graph !! k
            = Some (successors (edges_of dependencies) k))
       ∧ PyDict.keys (in_degree st0) = key_order tasks
       ∧ kahn_inv (edges_of dependencies) (key_order tasks)
                  (task_map_of tasks) st0)
  ∨ (¬ (∀ p s, (p, s) ∈ edges_of dependencies → s ∈ key_order tasks)
     ∧ ∃ e, kahn_init tasks dependencies = Raise e).
Proof.
  intros Hpred.
  destruct (decide (Forall (λ e, e.2 ∈ key_order tasks)
                           (edges_of dependencies))) as [Hall|Hnot].
  - left.
    assert (∀ p s, (p, s) ∈ edges_of dependencies → s ∈ key_order tasks)
      as Hsucc.
    { intros p s Hps. by apply (proj1 (Forall_forall _ _) Hall (p, s)). }
    split; [done|].
    destruct (count_loop_returns tasks dependencies)
      as ([graph in_degree] & Hloop & Hwf1 & Hwf2 & Hkeys & Hgraph & Hdeg).
    { intros p s Hps. split; [by apply (Hpred p s)|by apply (Hsucc p s)]. }
    simpl in *.
    exists graph,
      (KahnState in_degree
         (filter (λ k, indegree (edges_of dependencies) k = 0)
                 (PyDict.keys in_degree)) []).
    split.
    { unfold kahn_init. rewrite Hloop. simpl.
      rewrite (filter_each_pure _
                 (λ k, indegree (edges_of dependencies) k = 0)); [done|].
      intros k Hk. rewrite Hkeys in Hk. unfold PyDict.getitem.
      by rewrite (Hdeg k Hk). }
    split; [done|]. split; [done|].
    unfold kahn_inv, placed. simpl. rewrite remaining_nil.
    split; [done|]. split; [by rewrite Hkeys|]. split.
    { apply NoDup_filter, Hwf2. }
    split; [done|]. split.
    { intros k. rewrite list_elem_of_filter, Hkeys. tauto. }
    split; [|constructor]. intros j s p Hj. by rewrite lookup_nil in Hj.
  - right.
    assert (¬ ∀ p s, (p, s) ∈ edges_of dependencies → s ∈ key_order tasks)
      as Hnsucc.
    { intros Hsucc. apply Hnot, Forall_forall. intros [p s] Hps.
      by apply (Hsucc p s). }
    split; [done|]. unfold kahn_init.
    destruct (for_each count_dependency _ dependencies) as [acc|e|] eqn:Hloop.
    + exfalso. apply Hnsucc. by eapply count_loop_Return.
    + by exists e.
    + exfalso. revert Hloop. apply for_each_no_OutOfFuel.
      apply count_dependency_no_OutOfFuel.
Qed.

Lemma query_edges_in_order db project_id p s :
  (p, s) ∈ edges db project_id →
  p ∈ key_order (query_tasks db project_id).
Proof. intros H. by apply key_order_elem, (edges_pred_in_project _ _ p s). Qed.

Lemma successors_in_project_iff db project_id :
  successors_in_project db project_id ↔
  ∀ p s, (p, s) ∈ edges db project_id →
         s ∈ key_order (query_tasks db project_id).
Proof.
  unfold successors_in_project. rewrite Forall_forall. split.
  - intros H p s Hps. apply key_order_elem. by apply (H (p, s)).
  - intros H [p s] Hps. simpl. by apply key_order_elem, (H p s).
Qed.

(** [topological_sort] returns if every successor is a task of the project,
    and then the loop has run to an empty queue under its invariant;
    otherwise it raises. *)
Lemma topological_sort_cases db project_id :
  (successors_in_project db project_id
   ∧ ∃ graph st0 st',
       kahn_init (query_tasks db project_id)
                 (query_dependencies db project_id) = Return (graph, st0)
       ∧ topological_sort db project_id = Return (sorted_tasks st')
       ∧ kahn_reachable (task_map_of (query_tasks db project_id)) graph st0 st'
       ∧ kahn_inv (edges db project_id)
                  (key_order (query_tasks db project_id))
                  (task_map_of (query_tasks db project_id)) st'
       ∧ queue st' = [])
  ∨ (¬ successors_in_project db project_id
     ∧ ∃ e, topological_sort db project_id = Raise e).
Proof.
  unfold topological_sort.
  destruct (kahn_init_cases (query_tasks db project_id)
              (query_dependencies db project_id))
    as [(Hsucc & graph & st0 & Hinit & Hgraph & Hkeys & Hinv)
       |(Hnsucc & e & Hinit)].
  - apply query_edges_in_order.
  - left. split; [by apply successors_in_project_iff|].
    destruct (kahn_loop_spec (edges db project_id)
                (key_order (query_tasks db project_id))
                (task_map_of (query_tasks db project_id)) graph)
      with (fuel := length (PyDict.keys (in_degree st0))) (st := st0)
      as (st' & Hloop & Hreach & Hinv' & Hq').
    + exact Hsucc.
    + exact Hgraph.
    + intros k Hk. destruct (task_map_of_lookup _ k Hk) as (t & ? & ? & _).
      eauto.
    + exact Hinv.
    + rewrite Hkeys. lia.
    + exists graph, st0, st'. rewrite Hinit. simpl. done.
  - right. split; [by rewrite successors_in_project_iff|].
    exists e. by rewrite Hinit.
Qed.

(** ** Consequences for the output *)

Lemma before_lookup {A : Type} (l : list A) (i j : nat) (x y : A) :
  l !! i = Some x → l !! j = Some y → (i < j)%nat → before x y l.
Proof.
  intros Hi Hj Hlt.
  exists (take i l), (take (j - S i) (drop (S i) l)),
         (drop (S (j - S i)) (drop (S i) l)).
  assert (drop (S i) l !! (j - S i)%nat = Some y) as Hj'.
  { rewrite lookup_drop. by replace (S i + (j - S i))%nat with j by lia. }
  rewrite (take_drop_middle _ _ _ Hj').
  by rewrite (take_drop_middle _ _ _ Hi).
Qed.

Lemma unique_task_ids_project db project_id :
  unique_task_ids db → NoDup (task_ids db project_id).
Proof.
  unfold unique_task_ids, task_ids, query_tasks. intros Hnd.
  eapply sublist_NoDup; [exact Hnd|].
  apply fmap_sublist, sublist_filter.
Qed.

Lemma task_map_of_unique tasks t :
  NoDup (Task.id <$> tasks) → t ∈ tasks →
  PyDict.items (task_map_of tasks) !! Task.id t = Some t.
Proof.
  intros Hnd Ht.
  by apply (comprehension_lookup_NoDup Task.id (λ task, task)).
Qed.

(** The placed tasks are tasks of the project, without repetition. *)
Lemma kahn_inv_sorted E tasks st :
  kahn_inv E (key_order tasks) (task_map_of tasks) st →
  NoDup (sorted_tasks st) ∧ ∀ t, t ∈ sorted_tasks st → t ∈ tasks.
Proof.
  intros (_ & _ & Hnd & _ & _ & _ & Hfrom). split.
  - apply NoDup_app in Hnd as (Hnd & _). by apply NoDup_fmap_1 in Hnd.
  - intros t Ht. apply (proj1 (Forall_forall _ _) Hfrom) in Ht.
    by apply comprehension_lookup_Some in Ht as (x & Hx & _ & <-).
Qed.


(** On an acyclic graph with unique ids the output is a permutation of the
    tasks. *)
Lemma kahn_inv_permutation E tasks st :
  (∀ p s, (p, s) ∈ E → p ∈ key_order tasks) →
  NoDup (Task.id <$> tasks) →
  kahn_inv E (key_order tasks) (task_map_of tasks) st →
  queue st = [] →
  acyclic E →
  sorted_tasks st ≡ₚ tasks.
Proof.
  intros Hpred Hnd Hinv Hq Hacyclic.
  destruct (kahn_inv_sorted E tasks st Hinv) as [Hnds Hsub].
  apply NoDup_Permutation; [done|by apply NoDup_fmap_1 in Hnd|].
  intros t. split; [apply Hsub|]. intros Ht.
  assert (Task.id t ∈ placed st) as Hp.
  { eapply (kahn_complete E); [exact Hpred|exact Hinv|done..|].
    by apply key_order_elem, list_elem_of_fmap_2. }
  apply list_elem_of_fmap in Hp as (t' & Hid & Ht').
  destruct Hinv as (_ & _ & _ & _ & _ & _ & Hfrom).
  apply (proj1 (Forall_forall _ _) Hfrom) in Ht' as Hmap.
  rewrite <-Hid, (task_map_of_unique tasks t Hnd Ht) in Hmap.
  by injection Hmap as ->.
Qed.

(** In the output every task comes after its predecessors. *)
Lemma kahn_inv_before E tasks st tp ts :
  kahn_inv E (key_order tasks) (task_map_of tasks) st →
  tp ∈ sorted_tasks st → ts ∈ sorted_tasks st →
  (Task.id tp, Task.id ts) ∈ E →
  before tp ts (sorted_tasks st).
Proof.
  intros (_ & _ & Hnd & _ & _ & Hresp & _) Hp Hs Hedge.
  apply NoDup_app in Hnd as (Hnd & _).
  apply list_elem_of_lookup in Hp as [i0 Hi0].
  apply list_elem_of_lookup in Hs as [j Hj].
  destruct (Hresp j (Task.id ts) (Task.id tp)) as (i & Hij & Hi); [|done|].
  { unfold placed. by rewrite list_lookup_fmap, Hj. }
  assert (placed st !! i0 = Some (Task.id tp)) as Hi0'.
  { unfold placed. by rewrite list_lookup_fmap, Hi0. }
  pose proof (NoDup_lookup _ _ _ _ Hnd Hi Hi0'). subst i0.
  by eapply before_lookup.
Qed.

(** ** The steps of the loop *)


Section kahn_run.
Context (tasks : list Task.t) (dependencies : list TaskDependency.t).
Context (graph : PyDict.t (list Z)) (st0 : kahn_state).
Context (Hpred : ∀ p s, (p, s) ∈ edges_of dependencies →
                        p ∈ key_order tasks).
Context (Hinit : kahn_init tasks dependencies = Return (graph, st0)).



End kahn_run.


(** ** Reading the detector *)

Lemma has_cycle_false_acyclic db project_id :
  has_cycle db project_id = Return false → acyclic (edges db project_id).
Proof.
  intros H x Hx.
  destruct (has_cycle_spec db project_id) as (found & Hfound & Hiff).
  rewrite H in Hfound. injection Hfound as <-.
  assert (false = true) as [=]. apply Hiff. by exists x.
Qed.


Lemma cyclic_has_cycle db project_id :
  cyclic (edges db project_id) → has_cycle db project_id = Return true.
Proof.
  intros H.
  destruct (has_cycle_spec db project_id) as (found & -> & Hiff).
  f_equal. by apply Hiff.
Qed.

(** ** The endpoints *)

(** [auto_allocate] answers a project with a cycle with an error and leaves
    the store as it was. *)
Lemma auto_allocate_cyclic s project_id utcnow :
  cyclic (edges (Session.open s) project_id) →
  ∃ e, auto_allocate project_id utcnow s = (Raise e, s)
       ∧ (is_Some (query_project (Session.open s) project_id) →
          e = HTTPException 400
                "Cannot allocate: project has circular dependencies").
Proof.
  intros Hcyc%cyclic_has_cycle. unfold auto_allocate.
  destruct (query_project (Session.open s) project_id) as [proj|].
  - rewrite Hcyc. eauto.
  - eexists. split; [done|]. by intros [? ?].
Qed.

(** [topological_sort] returns or raises. *)
Lemma topological_sort_total db project_id :
  topological_sort db project_id ≠ OutOfFuel.
Proof.
  destruct (topological_sort_cases db project_id)
    as [(_ & graph & st0 & st' & _ & -> & _)|(_ & e & ->)]; done.
Qed.

(** Without an available resource [allocate_resources] raises. *)
Lemma allocate_resources_no_resources db project_id utcnow :
  query_available_resources db = [] →
  ∃ e, allocate_resources db project_id utcnow = Raise e
       ∧ (successors_in_project db project_id →
          e = HTTPException 400 "No available resources").
Proof.
  intros Hres. unfold allocate_resources.
  destruct (topological_sort_cases db project_id)
    as [(_ & graph & st0 & st' & _ & -> & _)|(Hnot & e & ->)]; simpl.
  - rewrite Hres. eauto.
  - exists e. split; [done|]. by intros ?.
Qed.

(** When [create_dependency] answers that the dependency creates a cycle,
    the dependency is in the store: it was committed before the check, and
    the rollback that follows the check has nothing left to undo. *)
Lemma create_dependency_cycle_commits dependency s s' :
  create_dependency dependency s
  = (Raise (HTTPException 400 "This dependency creates a cycle"), s') →
  Store.task_dependencies s'
  = Store.task_dependencies s
    ++ [TaskDependency.mk
          (Some (next_id (TaskDependency.id <$> Store.task_dependencies s)))
          (predecessor_task_id dependency) (successor_task_id dependency)].
Proof.
  unfold create_dependency.
  destruct (query_task _ _) as [pred_task|]; [|by intros [=]].
  destruct (query_task _ _) as [succ_task|]; [|by intros [=]].
  case_decide; [by intros [=]|].
  unfold Session.commit, Session.add_dependency, Session.open. simpl.
  match goal with
  | |- context [has_cycle ?db ?p] =>
      destruct (has_cycle_spec db p) as (found & -> & _)
  end.
  destruct found; simpl.
  - by intros [= <-].
  - intros [=].
Qed.

(** * The claims of the specification *)

(** C3. In every run of the allocator, each produced assignment lasts
    exactly the estimated duration of its task, counted in minutes, and each
    assignment ends no later than the next one starts. *)
Theorem allocation_durations_and_clock db project_id utcnow allocs db' :
  allocate_resources db project_id utcnow = Return (allocs, db') →
  ∃ sorted,
    topological_sort db project_id = Return sorted
    ∧ Forall2 (λ a task,
        TaskAllocation.scheduled_end a - TaskAllocation.scheduled_start a
        = minutes (Task.estimated_duration task)) allocs sorted
    ∧ ∀ i a b, allocs !! i = Some a → allocs !! S i = Some b →
        TaskAllocation.scheduled_end a ≤ TaskAllocation.scheduled_start b.
Proof.
  intros H.
  apply allocate_resources_Return in H
    as (sorted & Hsort & _ & Hrec & Hcont & _).
  exists sorted. split; [done|]. split.
  - eapply Forall2_impl; [exact Hrec|]. by intros a task (_ & ? & _).
  - apply contiguous_lookup in Hcont as [_ Hnext].
    intros i a b Ha Hb. by rewrite (Hnext i a b).
Qed.

Lemma allocation_durations_and_clock_witness :
  ∃ allocs sorted,
    topological_sort (Session.open Examples.diamond) 1 = Return sorted
    ∧ Forall2 (λ a task,
        TaskAllocation.scheduled_end a - TaskAllocation.scheduled_start a
        = minutes (Task.estimated_duration task)) allocs sorted
    ∧ ∀ i a b, allocs !! i = Some a → allocs !! S i = Some b →
        TaskAllocation.scheduled_end a ≤ TaskAllocation.scheduled_start b.
Proof.
  eexists.
  eapply (allocation_durations_and_clock (Session.open Examples.diamond) 1 0).
  vm_compute. reflexivity.
Defined.

(** C10. In every run of the allocator the timeline has no gap: the first
    assignment starts at the initial value of the clock, every other
    assignment starts exactly where the one before it ends, and there is
    exactly one assignment per task of the ordered task list, in that
    order. *)
Theorem allocation_timeline_contiguous db project_id utcnow allocs db' :
  allocate_resources db project_id utcnow = Return (allocs, db') →
  ∃ sorted,
    topological_sort db project_id = Return sorted
    ∧ TaskAllocation.task_id <$> allocs = Task.id <$> sorted
    ∧ (∀ a, head allocs = Some a → TaskAllocation.scheduled_start a = utcnow)
    ∧ ∀ i a b, allocs !! i = Some a → allocs !! S i = Some b →
        TaskAllocation.scheduled_start b = TaskAllocation.scheduled_end a.
Proof.
  intros H.
  apply allocate_resources_Return in H
    as (sorted & Hsort & _ & Hrec & Hcont & _).
  exists sorted. split; [done|]. split.
  - clear -Hrec. induction Hrec as [|a task allocs sorted (Hid & _) _ IH];
      csimpl; [done|]. by rewrite Hid, IH.
  - by apply contiguous_lookup.
Qed.

Lemma allocation_timeline_contiguous_witness :
  ∃ allocs sorted,
    topological_sort (Session.open Examples.diamond) 1 = Return sorted
    ∧ TaskAllocation.task_id <$> allocs = Task.id <$> sorted
    ∧ (∀ a, head allocs = Some a → TaskAllocation.scheduled_start a = 0)
    ∧ ∀ i a b, allocs !! i = Some a → allocs !! S i = Some b →
        TaskAllocation.scheduled_start b = TaskAllocation.scheduled_end a.
Proof.
  eexists.
  eapply (allocation_timeline_contiguous (Session.open Examples.diamond) 1 0).
  vm_compute. reflexivity.
Defined.




(** C1. On an acyclic task graph of one project, [topological_sort] returns
    a permutation of all the tasks of the project in which, for every
    dependency edge (p, s), the task p comes strictly before the task s.
    The graph is one of a store: task ids are unique and both ends of each
    edge are tasks of the project. *)
Theorem topological_sort_sorts db project_id :
  unique_task_ids db →
  successors_in_project db project_id →
  acyclic (edges db project_id) →
  ∃ sorted,
    topological_sort db project_id = Return sorted
    ∧ sorted ≡ₚ query_tasks db project_id
    ∧ ∀ p s, (p, s) ∈ edges db project_id →
        ∃ tp ts, Task.id tp = p ∧ Task.id ts = s ∧ before tp ts sorted.
Proof.
  intros Huniq Hsucc Hacyclic.
  destruct (topological_sort_cases db project_id)
    as [(_ & graph & st0 & st' & _ & Hsort & _ & Hinv & Hq)|(Hnot & _)];
    [|done].
  pose proof (unique_task_ids_project db project_id Huniq) as Hnd.
  assert (sorted_tasks st' ≡ₚ query_tasks db project_id) as Hperm.
  { eapply kahn_inv_permutation; [|done..]. apply query_edges_in_order. }
  exists (sorted_tasks st'). split; [done|]. split; [done|].
  intros p s Hps.
  assert (∀ k, k ∈ task_ids db project_id →
               ∃ t, t ∈ sorted_tasks st' ∧ Task.id t = k) as Hfind.
  { intros k (t & -> & Ht)%list_elem_of_fmap. exists t.
    split; [by rewrite Hperm|done]. }
  destruct (Hfind p) as (tp & Htp & Hidp).
  { by apply (edges_pred_in_project db project_id p s). }
  destruct (Hfind s) as (ts & Hts & Hids).
  { by apply (proj1 (Forall_forall _ _) Hsucc (p, s)). }
  exists tp, ts. split; [done|]. split; [done|].
  eapply kahn_inv_before; [done..|]. by rewrite Hidp, Hids.
Qed.

Lemma topological_sort_sorts_witness :
  ∃ sorted,
    topological_sort (Session.open Examples.diamond) 1 = Return sorted
    ∧ sorted ≡ₚ query_tasks (Session.open Examples.diamond) 1
    ∧ ∀ p s, (p, s) ∈ edges (Session.open Examples.diamond) 1 →
        ∃ tp ts, Task.id tp = p ∧ Task.id ts = s ∧ before tp ts sorted.
Proof.
  apply (topological_sort_sorts (Session.open Examples.diamond) 1).
  - unfold unique_task_ids. apply (bool_decide_unpack _). vm_compute. exact I.
  - unfold successors_in_project. apply (bool_decide_unpack _).
    vm_compute. exact I.
  - apply has_cycle_false_acyclic. vm_compute. reflexivity.
Defined.


(** C4, at the failing input: the store holds the dependency 1 → 2 and the
    request asks for 2 → 1.  The request is answered with the cycle error,
    but the store that is left is not the store before the request: it holds
    both dependencies, and the project now has a cycle. *)
Theorem create_dependency_cycle_persists :
  create_dependency Examples.back_edge Examples.chain
  = (Raise (HTTPException 400 "This dependency creates a cycle"),
     Examples.loop)
  ∧ Examples.loop ≠ Examples.chain
  ∧ has_cycle (Session.open Examples.loop) 1 = Return true.
Proof.
  split; [vm_compute; reflexivity|]. split; [discriminate|].
  vm_compute. reflexivity.
Qed.




(** C7. An allocation call made when no resource is available fails with an
    error before any assignment is produced: [allocate_resources] raises,
    with the no available resources error once the tasks are ordered, and
    the endpoint leaves the store as it was, so no assignment is created or
    committed. *)
Theorem no_available_resources s project_id utcnow :
  query_available_resources (Session.open s) = [] →
  (∃ e, allocate_resources (Session.open s) project_id utcnow = Raise e
        ∧ (successors_in_project (Session.open s) project_id →
           e = HTTPException 400 "No available resources"))
  ∧ ∃ e, auto_allocate project_id utcnow s = (Raise e, s).
Proof.
  intros Hres.
  destruct (allocate_resources_no_resources (Session.open s) project_id
              utcnow Hres) as (e & He & Hwhich).
  split; [by exists e|]. unfold auto_allocate.
  destruct (query_project _ _); [|eauto].
  destruct (has_cycle_spec (Session.open s) project_id) as (found & -> & _).
  destruct found; [eauto|]. rewrite He. eauto.
Qed.

Lemma no_available_resources_witness :
  (∃ e, allocate_resources
          (Session.open (Store.mk [Project.mk 1] Examples.tasks [] [] []))
          1 0 = Raise e
        ∧ (successors_in_project
             (Session.open (Store.mk [Project.mk 1] Examples.tasks [] [] []))
             1 →
           e = HTTPException 400 "No available resources"))
  ∧ ∃ e, auto_allocate 1 0 (Store.mk [Project.mk 1] Examples.tasks [] [] [])
         = (Raise e, Store.mk [Project.mk 1] Examples.tasks [] [] []).
Proof.
  apply (no_available_resources
           (Store.mk [Project.mk 1] Examples.tasks [] [] []) 1 0).
  reflexivity.
Defined.





(** * Further properties of the code *)

(** ** More on the topological order *)

Lemma first_failure {A : Type} (P : A → Prop) `{∀ x, Decision (P x)}
    (l : list A) :
  ¬ Forall P l → ∃ l1 x l2, l = l1 ++ x :: l2 ∧ Forall P l1 ∧ ¬ P x.
Proof.
  induction l as [|x l IH]; intros Hnot.
  - destruct Hnot. constructor.
  - destruct (decide (P x)) as [Hx|Hx].
    + destruct IH as (l1 & y & l2 & -> & Hl1 & Hy).
      { intros Hl. apply Hnot. by constructor. }
      exists (x :: l1), y, l2. split; [done|]. split; [by constructor|done].
    + exists [], x, l. split; [done|]. split; [constructor|done].
Qed.

(** The set-up loop stops at the first dependency whose successor is not a
    key of the dictionaries, with the [KeyError] of that successor. *)
Lemma count_loop_Raise tasks l1 d l2 :
  (∀ p s, (p, s) ∈ edges_of (l1 ++ d :: l2) → p ∈ key_order tasks) →
  (∀ p s, (p, s) ∈ edges_of l1 → s ∈ key_order tasks) →
  TaskDependency.successor_task_id d ∉ key_order tasks →
  for_each count_dependency
    (PyDict.comprehension Task.id (λ _, []) tasks,
     PyDict.comprehension Task.id (λ _, 0) tasks) (l1 ++ d :: l2)
  = Raise (KeyError (TaskDependency.successor_task_id d)).
Proof.
  intros Hpred Hsucc Hd.
  assert (∀ p s, (p, s) ∈ edges_of l1 → p ∈ key_order tasks) as Hpred1.
  { intros p s Hps. apply (Hpred p s). unfold edges_of.
    rewrite fmap_app. apply elem_of_app. by left. }
  destruct (count_loop_returns tasks l1)
    as (acc & Hacc & _ & Hwf2 & Hkeys & Hgraph & _).
  { intros p s Hps. split; [by apply (Hpred1 p s)|by apply (Hsucc p s)]. }
  assert (TaskDependency.predecessor_task_id d ∈ key_order tasks) as Hp.
  { apply (Hpred _ (TaskDependency.successor_task_id d)).
    apply elem_of_edges_of. exists d. split; [|done].
    apply elem_of_app. right. left. }
  rewrite for_each_app, Hacc. simpl.
  unfold count_dependency, PyDict.getitem. rewrite (Hgraph _ Hp). simpl.
  destruct (PyDict.items acc.2 !! TaskDependency.successor_task_id d)
    as [n|] eqn:Hn; [|done].
  exfalso. apply Hd. rewrite <-Hkeys. apply Hwf2. by rewrite Hn.
Qed.

(** X1. Whatever the graph, a list that [topological_sort] returns holds
    tasks of the project, each at most once, every task after all its
    predecessors, and no task that lies on a cycle. *)
Theorem topological_sort_respects_edges db project_id sorted :
  topological_sort db project_id = Return sorted →
  NoDup (Task.id <$> sorted)
  ∧ (∀ t, t ∈ sorted → t ∈ query_tasks db project_id)
  ∧ (∀ ts p, ts ∈ sorted → (p, Task.id ts) ∈ edges db project_id →
       ∃ tp, Task.id tp = p ∧ before tp ts sorted)
  ∧ (∀ t, t ∈ sorted →
       ¬ tc (edge (edges db project_id)) (Task.id t) (Task.id t)).
Proof.
  intros Hsort.
  destruct (topological_sort_cases db project_id)
    as [(_ & graph & st0 & st' & _ & Hsort' & _ & Hinv & _)
       |(_ & e & Hraise)]; [|by rewrite Hsort in Hraise].
  rewrite Hsort in Hsort'. injection Hsort' as ->.
  pose proof Hinv as (_ & _ & Hnd & _ & _ & Hresp & _).
  apply NoDup_app in Hnd as (Hnd & _).
  split; [done|]. split; [apply (kahn_inv_sorted _ _ _ Hinv)|]. split.
  - intros ts p [j Hj]%list_elem_of_lookup Hedge.
    destruct (Hresp j (Task.id ts) p) as (i & Hij & Hi); [|done|].
    { unfold placed. by rewrite list_lookup_fmap, Hj. }
    unfold placed in Hi. rewrite list_lookup_fmap in Hi.
    destruct (sorted_tasks st' !! i) as [tp|] eqn:Htp; [|done].
    injection Hi as Hi. exists tp. split; [done|]. by eapply before_lookup.
  - intros t Ht Hcyc.
    eapply kahn_cycle_not_placed; [exact Hinv|exact Hcyc|].
    by apply list_elem_of_fmap_2.
Qed.

Lemma topological_sort_respects_edges_witness :
  NoDup (Task.id <$> [Task.mk 3 1 10 9 []])
  ∧ (∀ t, t ∈ [Task.mk 3 1 10 9 []] →
          t ∈ query_tasks (Session.open Examples.loop) 1)
  ∧ (∀ ts p, ts ∈ [Task.mk 3 1 10 9 []] →
       (p, Task.id ts) ∈ edges (Session.open Examples.loop) 1 →
       ∃ tp, Task.id tp = p ∧ before tp ts [Task.mk 3 1 10 9 []])
  ∧ (∀ t, t ∈ [Task.mk 3 1 10 9 []] →
       ¬ tc (edge (edges (Session.open Examples.loop) 1))
            (Task.id t) (Task.id t)).
Proof.
  apply (topological_sort_respects_edges (Session.open Examples.loop) 1).
  vm_compute. reflexivity.
Defined.

(** X2. [topological_sort] returns a list exactly when the successor of
    every dependency of the project is a task of the project; otherwise it
    raises the [KeyError] of a successor that is not one. *)
Theorem topological_sort_returns_iff db project_id :
  (successors_in_project db project_id
   ↔ ∃ sorted, topological_sort db project_id = Return sorted)
  ∧ (¬ successors_in_project db project_id →
     ∃ p s, (p, s) ∈ edges db project_id
            ∧ (s ∉ task_ids db project_id)
            ∧ topological_sort db project_id = Raise (KeyError s)).
Proof.
  split.
  - destruct (topological_sort_cases db project_id)
      as [(Hsucc & graph & st0 & st' & _ & Hsort & _)|(Hnot & e & Hraise)].
    + split; [eauto|done].
    + split; [done|]. intros (sorted & Hsort). by rewrite Hsort in Hraise.
  - intros Hnot.
    assert (¬ Forall (λ d, TaskDependency.successor_task_id d
                           ∈ task_ids db project_id)
                     (query_dependencies db project_id)) as Hnot'.
    { intros H. apply Hnot. unfold successors_in_project, edges, edges_of.
      rewrite Forall_fmap. exact H. }
    apply first_failure in Hnot' as (l1 & d & l2 & Hsplit & Hl1 & Hd);
      [|intros x; apply _].
    exists (TaskDependency.predecessor_task_id d),
           (TaskDependency.successor_task_id d).
    split; [|split; [done|]].
    { apply elem_of_edges_of. exists d. split; [|done]. rewrite Hsplit.
      apply elem_of_app. right. left. }
    unfold topological_sort, kahn_init. rewrite Hsplit.
    rewrite count_loop_Raise; [done| | |].
    + rewrite <-Hsplit. apply query_edges_in_order.
    + intros p s (d' & Hd' & _ & <-)%elem_of_edges_of.
      apply key_order_elem.
      by apply (proj1 (Forall_forall _ _) Hl1 d').
    + by rewrite key_order_elem.
Qed.

(** ** Ties *)





(** ** More on the allocator *)


(** The timeline of the tasks [tasks] that starts at [t0] ends at [t0]
    plus the sum of their durations. *)
Lemma contiguous_end resources allocs tasks t0 :
  Forall2 (records resources) allocs tasks →
  contiguous t0 allocs →
  default t0 (TaskAllocation.scheduled_end <$> last allocs)
  = t0 + minutes (total_duration tasks).
Proof.
  unfold total_duration, minutes. intros H. revert t0.
  induction H as [|a task allocs tasks (_ & Hdur & _) _ IH]; intros t0.
  - intros _. simpl. lia.
  - intros [Hstart Hcont]. specialize (IH _ Hcont). csimpl.
    unfold minutes in Hdur.
    destruct allocs as [|b allocs].
    + simpl in *. lia.
    + cbn [last]. cbn [last] in IH.
      destruct (last (b :: allocs)) as [c|] eqn:Hl; simpl in *; [lia|].
      by apply last_None in Hl.
Qed.

(** What a returning call of [allocate_resources] in a session without
    pending objects leaves in the store: the allocations, after those that
    were there, and nothing else. *)
Lemma allocate_resources_store db project_id utcnow allocs db' :
  Session.new_dependencies db = [] →
  Session.new_allocations db = [] →
  allocate_resources db project_id utcnow = Return (allocs, db') →
  Session.store db'
  = Store.mk (Store.projects (Session.store db))
             (Store.tasks (Session.store db))
             (Store.task_dependencies (Session.store db))
             (Store.resources (Session.store db))
             (Store.task_allocations (Session.store db) ++ allocs).
Proof.
  intros Hnd Hna H. unfold allocate_resources in H.
  apply bind_Return in H as (sorted & Hsort & H).
  destruct (query_available_resources db) as [|r rs] eqn:Hres; [done|].
  apply bind_Return in H as (st & Hloop & H).
  apply allocate_loop in Hloop as (new & _ & Hse & _).
  simpl in *. unfold Session.commit in H. rewrite Hse in H. simpl in H.
  rewrite Hnd, Hna in H. simpl in H.
  destruct (insert_allocations_spec
              (Store.task_allocations (Session.store db)) new)
    as (rows & Hins & _).
  rewrite Hins in H. simpl in H. unfold mret, outcome_ret in H.
  by injection H as <- <-.
Qed.

Lemma topological_sort_sorted_sub db project_id sorted :
  topological_sort db project_id = Return sorted →
  sorted ⊆+ query_tasks db project_id.
Proof.
  intros Hsort.
  destruct (topological_sort_cases db project_id)
    as [(_ & graph & st0 & st' & _ & Hsort' & _ & Hinv & _)
       |(_ & e & Hraise)]; [|by rewrite Hsort in Hraise].
  rewrite Hsort in Hsort'. injection Hsort' as ->.
  destruct (kahn_inv_sorted _ _ _ Hinv) as [Hnd Hsub].
  by apply NoDup_submseteq.
Qed.



(** X5. Whatever its outcome, [auto_allocate] leaves the projects, tasks,
    dependencies and resources of the store as they were and only appends
    to the allocations; when it answers with an error it leaves the whole
    store as it was. *)
Theorem auto_allocate_frame s project_id utcnow result s' :
  auto_allocate project_id utcnow s = (result, s') →
  Store.projects s' = Store.projects s
  ∧ Store.tasks s' = Store.tasks s
  ∧ Store.task_dependencies s' = Store.task_dependencies s
  ∧ Store.resources s' = Store.resources s
  ∧ (∃ new, Store.task_allocations s' = Store.task_allocations s ++ new)
  ∧ (∀ e, result = Raise e → s' = s).
Proof.
  unfold auto_allocate.
  assert (Store.task_allocations s = Store.task_allocations s ++ [])
    as Hnil by by rewrite app_nil_r.
  destruct (query_project _ _); [|intros [= <- <-]; by eauto 10].
  destruct (has_cycle _ _) as [[|]| |]; try (intros [= <- <-]; by eauto 10).
  destruct (allocate_resources _ _ _) as [[allocs db']| |] eqn:Halloc;
    try (intros [= <- <-]; by eauto 10).
  intros [= <- <-].
  rewrite (allocate_resources_store (Session.open s) _ _ _ _ eq_refl eq_refl Halloc).
  simpl. split_and!; try done. by exists allocs.
Qed.

Lemma auto_allocate_frame_witness :
  Store.projects Examples.loop = Store.projects Examples.loop
  ∧ Store.tasks Examples.loop = Store.tasks Examples.loop
  ∧ Store.task_dependencies Examples.loop
    = Store.task_dependencies Examples.loop
  ∧ Store.resources Examples.loop = Store.resources Examples.loop
  ∧ (∃ new, Store.task_allocations Examples.loop
            = Store.task_allocations Examples.loop ++ new)
  ∧ (∀ e, Raise (A := list TaskAllocation.t)
            (HTTPException 400
               "Cannot allocate: project has circular dependencies")
          = Raise e → Examples.loop = Examples.loop).
Proof.
  apply (auto_allocate_frame Examples.loop 1 0).
  vm_compute. reflexivity.
Defined.

Lemma auto_allocate_Return s project_id utcnow allocs s' :
  auto_allocate project_id utcnow s = (Return allocs, s') →
  ∃ db', allocate_resources (Session.open s) project_id utcnow
         = Return (allocs, db')
         ∧ s' = Session.store db'.
Proof.
  unfold auto_allocate.
  destruct (query_project _ _); [|by intros [=]].
  destruct (has_cycle _ _) as [[|]| |]; try by intros [=].
  destruct (allocate_resources _ _ _) as [[allocs' db']| |];
    try by intros [=].
  intros [= <- <-]. by exists db'.
Qed.

Lemma records_same resources a1 a2 tasks :
  Forall2 (records resources) a1 tasks →
  Forall2 (records resources) a2 tasks →
  TaskAllocation.task_id <$> a2 = TaskAllocation.task_id <$> a1
  ∧ TaskAllocation.resource_id <$> a2 = TaskAllocation.resource_id <$> a1.
Proof.
  intros H1. revert a2.
  induction H1 as [|x task a1 tasks (Hid1 & _ & r1 & Hr1 & Hres1) _ IH];
    intros a2 H2.
  - by apply Forall2_nil_inv_r in H2 as ->.
  - apply Forall2_cons_inv_r in H2
      as (y & a2' & (Hid2 & _ & r2 & Hr2 & Hres2) & H2 & ->).
    destruct (IH _ H2) as [IHt IHr]. csimpl.
    rewrite Hr1 in Hr2. injection Hr2 as <-.
    rewrite IHt, IHr, Hid1, Hid2, Hres1, Hres2. done.
Qed.

(** X6. [auto_allocate] does not replace the allocations of a project: a
    second run appends a second allocation for every task, to the same
    resource as the first run, after the allocations of the first run. *)
Theorem auto_allocate_accumulates s project_id t1 t2 a1 s1 a2 s2 :
  auto_allocate project_id t1 s = (Return a1, s1) →
  auto_allocate project_id t2 s1 = (Return a2, s2) →
  TaskAllocation.task_id <$> a2 = TaskAllocation.task_id <$> a1
  ∧ TaskAllocation.resource_id <$> a2 = TaskAllocation.resource_id <$> a1
  ∧ Store.task_allocations s2 = Store.task_allocations s ++ a1 ++ a2.
Proof.
  intros (db1 & Hrun1 & ->)%auto_allocate_Return
         (db2 & Hrun2 & ->)%auto_allocate_Return.
  pose proof (allocate_resources_store (Session.open s) _ _ _ _
                eq_refl eq_refl Hrun1) as Hs1.
  pose proof (allocate_resources_store (Session.open (Session.store db1))
                _ _ _ _ eq_refl eq_refl Hrun2) as Hs2.
  apply allocate_resources_Return in Hrun1
    as (sorted1 & Hsort1 & _ & Hrec1 & _).
  apply allocate_resources_Return in Hrun2
    as (sorted2 & Hsort2 & _ & Hrec2 & _).
  assert (topological_sort (Session.open (Session.store db1)) project_id
          = topological_sort (Session.open s) project_id) as Hsame.
  { unfold topological_sort, query_tasks, query_dependencies. simpl.
    by rewrite Hs1. }
  assert (query_available_resources (Session.open (Session.store db1))
          = query_available_resources (Session.open s)) as Hres.
  { unfold query_available_resources. simpl. by rewrite Hs1. }
  rewrite Hsame, Hsort1 in Hsort2. injection Hsort2 as <-.
  rewrite Hres in Hrec2.
  destruct (records_same _ _ _ _ Hrec1 Hrec2) as [Ht Hr].
  split; [done|]. split; [done|].
  rewrite Hs2, Hs1. simpl. by rewrite <-app_assoc.
Qed.

Lemma auto_allocate_accumulates_witness :
  ∃ a1 s1 a2 s2,
    auto_allocate 1 0 Examples.diamond = (Return a1, s1)
    ∧ auto_allocate 1 5 s1 = (Return a2, s2)
    ∧ TaskAllocation.task_id <$> a2 = TaskAllocation.task_id <$> a1
    ∧ TaskAllocation.resource_id <$> a2 = TaskAllocation.resource_id <$> a1
    ∧ Store.task_allocations s2
      = Store.task_allocations Examples.diamond ++ a1 ++ a2.
Proof.
  eexists _, _, _, _.
  split; [vm_compute; reflexivity|]. split; [vm_compute; reflexivity|].
  eapply (auto_allocate_accumulates Examples.diamond 1 0 5).
  - vm_compute. reflexivity.
  - vm_compute. reflexivity.
Defined.

(** X7. The timeline of a run ends at the start of the run plus the sum of
    the durations of the ordered tasks: the tasks are laid end to end
    whatever resources they are given to. *)
Theorem allocation_makespan db project_id utcnow allocs db' :
  allocate_resources db project_id utcnow = Return (allocs, db') →
  ∃ sorted,
    topological_sort db project_id = Return sorted
    ∧ default utcnow (TaskAllocation.scheduled_end <$> last allocs)
      = utcnow + minutes (total_duration sorted).
Proof.
  intros H.
  apply allocate_resources_Return in H
    as (sorted & Hsort & _ & Hrec & Hcont & _).
  exists sorted. split; [done|]. by eapply contiguous_end.
Qed.

Lemma allocation_makespan_witness :
  ∃ allocs sorted,
    topological_sort (Session.open Examples.diamond) 1 = Return sorted
    ∧ default 0 (TaskAllocation.scheduled_end <$> last allocs)
      = 0 + minutes (total_duration sorted).
Proof.
  eexists.
  eapply (allocation_makespan (Session.open Examples.diamond) 1 0).
  vm_compute. reflexivity.
Defined.

(** X8. A task that requires no skill is given to the first employee of
    the roster, wherever equipment stands in the roster; without an
    employee it is given to the first resource, and choosing from an empty
    roster raises [IndexError]. *)
Theorem no_required_skills_first_employee resources task :
  Task.required_skills task = [] →
  choose_resource resources task
  = match head (filter (λ r, Resource.type r = EMPLOYEE) resources) with
    | Some e => Return e
    | None =>
        match head resources with
        | Some r => Return r
        | None => Raise IndexError
        end
    end.
Proof.
  intros Hreq. unfold choose_resource.
  assert (find_matching_employee resources task
          = head (filter (λ r, Resource.type r = EMPLOYEE) resources)) as ->.
  { induction resources as [|r rs IH]; simpl; [done|].
    rewrite filter_cons. unfold skills_match. rewrite Hreq. simpl.
    by destruct (decide (Resource.type r = EMPLOYEE)). }
  destruct (head (filter _ resources)); [done|].
  by destruct resources.
Qed.

Lemma no_required_skills_first_employee_witness :
  choose_resource [Examples.analyser; Examples.clerk; Examples.analyst]
                  (Task.mk 2 1 480 4 [])
  = match head (filter (λ r, Resource.type r = EMPLOYEE)
                  [Examples.analyser; Examples.clerk; Examples.analyst]) with
    | Some e => Return e
    | None =>
        match head [Examples.analyser; Examples.clerk; Examples.analyst] with
        | Some r => Return r
        | None => Raise IndexError
        end
    end.
Proof.
  apply (no_required_skills_first_employee
           [Examples.analyser; Examples.clerk; Examples.analyst]
           (Task.mk 2 1 480 4 [])).
  reflexivity.
Defined.

(** ** Keys and queries *)

Lemma next_id_fresh (ids : list (option Z)) (i : Z) :
  Some i ∈ ids → i < next_id ids.
Proof.
  unfold next_id. induction ids as [|j ids IH]; [by intros ?%elem_of_nil|].
  intros [<-|Hin]%elem_of_cons; simpl.
  - lia.
  - specialize (IH Hin). lia.
Qed.

Lemma head_filter_Some {A : Type} (P : A → Prop) `{∀ x, Decision (P x)}
    (l : list A) (x : A) :
  head (filter P l) = Some x →
  ∃ l1 l2, l = l1 ++ x :: l2 ∧ P x ∧ Forall (λ y, ¬ P y) l1.
Proof.
  induction l as [|y l IH]; [done|]. rewrite filter_cons.
  destruct (decide (P y)) as [Hy|Hy]; simpl.
  - intros [= ->]. exists [], l. split; [done|]. split; [done|constructor].
  - intros (l1 & l2 & -> & Hx & Hl1)%IH. exists (y :: l1), l2.
    split; [done|]. split; [done|by constructor].
Qed.

Lemma head_filter_None {A : Type} (P : A → Prop) `{∀ x, Decision (P x)}
    (l : list A) :
  head (filter P l) = None ↔ Forall (λ y, ¬ P y) l.
Proof.
  induction l as [|y l IH]; [by split; [constructor|]|]. rewrite filter_cons.
  destruct (decide (P y)) as [Hy|Hy]; simpl.
  - split; [done|]. intros [Hn _]%Forall_cons. done.
  - rewrite IH. split; [by constructor|by intros [_ ?]%Forall_cons].
Qed.

Lemma query_task_Some db task_id task :
  query_task db task_id = Some task →
  task ∈ Store.tasks (Session.store db) ∧ Task.id task = task_id.
Proof.
  intros (l1 & l2 & Heq & Hid & _)%head_filter_Some. split; [|done].
  rewrite Heq. apply elem_of_app. right. left.
Qed.

Lemma query_task_None db task_id :
  query_task db task_id = None ↔
  task_id ∉ Task.id <$> Store.tasks (Session.store db).
Proof.
  unfold query_task. rewrite head_filter_None, Forall_forall. split.
  - intros H (t & -> & Ht)%list_elem_of_fmap. by apply (H t).
  - intros H t Ht Hid. apply H. rewrite <-Hid. by apply list_elem_of_fmap_2.
Qed.

Lemma NoDup_fmap_eq {A B : Type} (f : A → B) (l : list A) (x y : A) :
  NoDup (f <$> l) → x ∈ l → y ∈ l → f x = f y → x = y.
Proof.
  intros Hnd [i Hi]%list_elem_of_lookup [j Hj]%list_elem_of_lookup Hxy.
  assert ((f <$> l) !! i = Some (f x)) as Hi'
    by by rewrite list_lookup_fmap, Hi.
  assert ((f <$> l) !! j = Some (f x)) as Hj'
    by by rewrite list_lookup_fmap, Hj, Hxy.
  pose proof (NoDup_lookup _ _ _ _ Hnd Hi' Hj'). subst j. congruence.
Qed.

Lemma query_task_unique db task :
  unique_task_ids db →
  task ∈ Store.tasks (Session.store db) →
  query_task db (Task.id task) = Some task.
Proof.
  intros Hnd Ht.
  destruct (query_task db (Task.id task)) as [t|] eqn:Hq.
  - apply query_task_Some in Hq as [Hin Hid]. f_equal.
    by apply (NoDup_fmap_eq Task.id (Store.tasks (Session.store db))).
  - apply query_task_None in Hq. destruct Hq. by apply list_elem_of_fmap_2.
Qed.

(** The rows that the join of [query_dependencies] keeps. *)
Lemma elem_of_query_dependencies_iff db project_id d :
  d ∈ query_dependencies db project_id ↔
  d ∈ Store.task_dependencies (Session.store db)
  ∧ ∃ t, t ∈ Store.tasks (Session.store db)
         ∧ TaskDependency.predecessor_task_id d = Task.id t
         ∧ Task.project_id t = project_id.
Proof.
  unfold query_dependencies. rewrite list_elem_of_bind. split.
  - intros (d' & (t & Hd & Ht)%list_elem_of_bind & Hd').
    case_decide as Hm; [|by apply elem_of_nil in Hd].
    apply list_elem_of_singleton in Hd as ->. destruct Hm. eauto.
  - intros (Hd & t & Ht & Hp & Hproj). exists d. split; [|done].
    apply list_elem_of_bind. exists t. split; [|done].
    rewrite decide_True by done. left.
Qed.

Lemma elem_of_edges db project_id p s :
  (p, s) ∈ edges db project_id ↔
  ∃ d t, d ∈ Store.task_dependencies (Session.store db)
         ∧ t ∈ Store.tasks (Session.store db)
         ∧ TaskDependency.predecessor_task_id d = p
         ∧ TaskDependency.successor_task_id d = s
         ∧ Task.id t = p ∧ Task.project_id t = project_id.
Proof.
  unfold edges. rewrite elem_of_edges_of. split.
  - intros (d & (Hd & t & Ht & Hp & Hproj)%elem_of_query_dependencies_iff
            & <- & <-).
    exists d, t. by rewrite Hp.
  - intros (d & t & Hd & Ht & <- & <- & Hid & Hproj). exists d.
    split; [|done]. apply elem_of_query_dependencies_iff. split; [done|].
    exists t. by rewrite Hid.
Qed.



(** ** [create_dependency] *)

(** Once the two tasks are found in one project, the dependency is stored
    and the answer follows the cycle check on the store that holds it. *)
Lemma create_dependency_checked dependency s tp ts :
  query_task (Session.open s) (predecessor_task_id dependency) = Some tp →
  query_task (Session.open s) (successor_task_id dependency) = Some ts →
  Task.project_id tp = Task.project_id ts →
  create_dependency dependency s
  = (match has_cycle
             (Session.open
                (with_dependency (stored_dependency dependency s) s))
             (Task.project_id tp) with
     | Return true =>
         Raise (HTTPException 400 "This dependency creates a cycle")
     | Return false => Return (stored_dependency dependency s)
     | Raise e => Raise e
     | OutOfFuel => OutOfFuel
     end,
     with_dependency (stored_dependency dependency s) s).
Proof.
  intros Hp Hs Hproj. unfold create_dependency. rewrite Hp, Hs.
  rewrite decide_False by (intros Hne; by apply Hne).
  unfold Session.commit, Session.add_dependency, Session.open. simpl.
  fold (stored_dependency dependency s).
  fold (with_dependency (stored_dependency dependency s) s).
  fold (Session.open (with_dependency (stored_dependency dependency s) s)).
  by destruct (has_cycle _ _) as [[|]| |].
Qed.







(** ** The invariant of the store *)

Lemma create_dependency_store dependency s result s' :
  create_dependency dependency s = (result, s') →
  s' = s
  ∨ ∃ tp ts,
      query_task (Session.open s) (predecessor_task_id dependency) = Some tp
      ∧ query_task (Session.open s) (successor_task_id dependency) = Some ts
      ∧ Task.project_id tp = Task.project_id ts
      ∧ s' = with_dependency (stored_dependency dependency s) s.
Proof.
  destruct (query_task (Session.open s) (predecessor_task_id dependency))
    as [tp|] eqn:Hp.
  2:{ unfold create_dependency. rewrite Hp. intros [= _ <-]. by left. }
  destruct (query_task (Session.open s) (successor_task_id dependency))
    as [ts|] eqn:Hs.
  2:{ unfold create_dependency. rewrite Hp, Hs. intros [= _ <-]. by left. }
  destruct (decide (Task.project_id tp = Task.project_id ts)) as [Heq|Hne].
  - rewrite (create_dependency_checked dependency s tp ts Hp Hs Heq).
    intros [= _ <-]. right. by exists tp, ts.
  - unfold create_dependency. rewrite Hp, Hs, decide_True by done.
    intros [= _ <-]. by left.
Qed.

(** X12. [create_dependency] keeps the invariant of the store: task ids
    stay unique, and both ends of every stored dependency are tasks of one
    project, whatever the answer. *)
Theorem create_dependency_keeps_store_wf dependency s result s' :
  store_wf s →
  create_dependency dependency s = (result, s') →
  store_wf s'.
Proof.
  intros [Hnd Hdeps]
    [->|(tp & ts & Hp & Hs & Hproj & ->)]%create_dependency_store; [done|].
  split; [done|]. unfold dependencies_within_projects. simpl.
  apply Forall_app. split; [done|]. constructor; [|constructor].
  apply query_task_Some in Hp as [Hp Hidp].
  apply query_task_Some in Hs as [Hs Hids].
  by exists tp, ts.
Qed.

Lemma create_dependency_keeps_store_wf_witness : store_wf Examples.loop.
Proof.
  apply (create_dependency_keeps_store_wf Examples.back_edge Examples.chain
           (Raise (HTTPException 400 "This dependency creates a cycle"))).
  - split.
    + apply (bool_decide_unpack _). vm_compute. exact I.
    + repeat constructor.
      exists (Task.mk 1 1 240 5 ["analysis"]), (Task.mk 2 1 480 4 []).
      split_and!; try done; set_solver.
  - vm_compute. reflexivity.
Defined.

Lemma store_wf_successors_in_project s project_id :
  store_wf s → successors_in_project (Session.open s) project_id.
Proof.
  intros [Hnd Hdeps]. apply successors_in_project_iff. intros p sc Hps.
  apply key_order_elem.
  apply elem_of_edges in Hps as (d & t & Hd & Ht & Hp & Hs & Hid & Hproj).
  apply (proj1 (Forall_forall _ _) Hdeps) in Hd
    as (tp & ts & Htp & Hts & Hidp & Hids & Hsame).
  simpl in *.
  assert (tp = t) as ->.
  { apply (NoDup_fmap_eq Task.id (Store.tasks s)); [done..|congruence]. }
  unfold query_tasks. simpl. rewrite <-Hs, <-Hids.
  apply list_elem_of_fmap_2, list_elem_of_filter. split; [congruence|done].
Qed.

(** X13. On a store that satisfies the invariant, [topological_sort] never
    raises: for every project it returns a list, whose tasks are tasks of
    the project. *)
Theorem store_wf_topological_sort_returns s project_id :
  store_wf s →
  ∃ sorted,
    topological_sort (Session.open s) project_id = Return sorted
    ∧ sorted ⊆+ query_tasks (Session.open s) project_id.
Proof.
  intros Hsucc%(store_wf_successors_in_project s project_id).
  destruct (topological_sort_cases (Session.open s) project_id)
    as [(_ & graph & st0 & st' & _ & Hsort & _)|(Hnot & _)]; [|done].
  exists (sorted_tasks st'). split; [done|].
  by apply topological_sort_sorted_sub.
Qed.

Lemma store_wf_topological_sort_returns_witness :
  ∃ sorted,
    topological_sort (Session.open Examples.chain) 1 = Return sorted
    ∧ sorted ⊆+ query_tasks (Session.open Examples.chain) 1.
Proof.
  apply (store_wf_topological_sort_returns Examples.chain 1).
  split.
  - apply (bool_decide_unpack _). vm_compute. exact I.
  - repeat constructor.
    exists (Task.mk 1 1 240 5 ["analysis"]), (Task.mk 2 1 480 4 []).
    split_and!; try done; set_solver.
Defined.

(** ** Tasks *)


Lemma head_filter_fresh {A : Type} (P : A → Prop) `{∀ x, Decision (P x)}
    (l : list A) (x : A) :
  Forall (λ y, ¬ P y) l → P x → head (filter P (l ++ [x])) = Some x.
Proof.
  intros Hl Hx. rewrite filter_app.
  assert (filter P l = []) as ->.
  { induction Hl as [|y l Hy _ IH]; [done|].
    by rewrite filter_cons, decide_False. }
  simpl. by rewrite filter_cons, decide_True.
Qed.



Lemma filter_fmap_stable {A : Type} (P : A → Prop) `{∀ x, Decision (P x)}
    (f : A → A) (l : list A) :
  (∀ x, P (f x) ↔ P x) → filter P (f <$> l) = f <$> filter P l.
Proof.
  intros Hf. induction l as [|x l IH]; [done|]. csimpl.
  rewrite !filter_cons, IH.
  destruct (decide (P x)) as [Hx|Hx].
  - by rewrite decide_True by by apply Hf.
  - by rewrite decide_False by by rewrite Hf.
Qed.



(** ** Resources *)

(** X16. [update_availability] on an existing resource sets the flag of
    that resource and nothing else: [get_resource] reads the resource back
    with the new flag, the ids of the roster are as they were, and a
    resource with another id is left alone. *)
Theorem update_availability_sets_flag resource_id available s resource :
  query_resource (Session.open s) resource_id = Some resource →
  ∃ s',
    update_availability resource_id available s = (Return available, s')
    ∧ get_resource resource_id s'
      = Return (Resource.mk (Resource.id resource) (Resource.type resource)
                            (Resource.skills resource) available)
    ∧ Resource.id <$> Store.resources s' = Resource.id <$> Store.resources s
    ∧ (∀ r, r ∈ Store.resources s → Resource.id r ≠ resource_id →
            r ∈ Store.resources s')
    ∧ Store.tasks s' = Store.tasks s
    ∧ Store.task_dependencies s' = Store.task_dependencies s
    ∧ Store.task_allocations s' = Store.task_allocations s.
Proof.
  intros Hq. unfold update_availability. rewrite Hq.
  set (u := λ r, if decide (Resource.id r = resource_id)
                 then Resource.mk (Resource.id r) (Resource.type r)
                                  (Resource.skills r) available
                 else r).
  assert (∀ r, Resource.id (u r) = Resource.id r) as Huid.
  { intros r. unfold u. by case_decide. }
  exists (with_resources (u <$> Store.resources s) s). split; [done|].
  split.
  { unfold get_resource, query_resource. simpl.
    rewrite filter_fmap_stable by (intros r; by rewrite Huid).
    unfold query_resource in Hq. simpl in Hq.
    destruct (filter _ (Store.resources s)) as [|r l] eqn:Hf; [done|].
    simpl in *. injection Hq as ->.
    assert (resource ∈ filter (λ r, Resource.id r = resource_id)
                              (Store.resources s)) as Hin
      by (rewrite Hf; left).
    apply list_elem_of_filter in Hin as [Hid _].
    unfold u. by rewrite decide_True. }
  split.
  { simpl. rewrite <-list_fmap_compose. apply list_fmap_ext.
    intros i r _. apply Huid. }
  split; [|done].
  intros r Hr Hne. simpl.
  assert (u r = r) as <- by (unfold u; by rewrite decide_False).
  by apply list_elem_of_fmap_2.
Qed.

Lemma update_availability_sets_flag_witness :
  ∃ s',
    update_availability 1 false Examples.chain = (Return false, s')
    ∧ get_resource 1 s'
      = Return (Resource.mk (Resource.id Examples.clerk)
                  (Resource.type Examples.clerk)
                  (Resource.skills Examples.clerk) false)
    ∧ Resource.id <$> Store.resources s'
      = Resource.id <$> Store.resources Examples.chain
    ∧ (∀ r, r ∈ Store.resources Examples.chain → Resource.id r ≠ 1 →
            r ∈ Store.resources s')
    ∧ Store.tasks s' = Store.tasks Examples.chain
    ∧ Store.task_dependencies s' = Store.task_dependencies Examples.chain
    ∧ Store.task_allocations s' = Store.task_allocations Examples.chain.
Proof.
  apply (update_availability_sets_flag 1 false Examples.chain Examples.clerk).
  reflexivity.
Defined.

(** X17. A resource that [update_availability] has made unavailable is
    given no task by the next [auto_allocate]. *)
Theorem unavailable_resource_not_assigned
    resource_id s s' project_id utcnow allocs s'' :
  update_availability resource_id false s = (Return false, s') →
  auto_allocate project_id utcnow s' = (Return allocs, s'') →
  ∀ a, a ∈ allocs → TaskAllocation.resource_id a ≠ resource_id.
Proof.
  unfold update_availability.
  destruct (query_resource _ _) as [r0|]; [|by intros [=]].
  intros [= <-] (db' & Hrun & _)%auto_allocate_Return a Ha Hid.
  apply allocate_resources_Return in Hrun
    as (sorted & _ & Hne & Hrec & _).
  apply list_elem_of_lookup in Ha as [i Hi].
  destruct (Forall2_lookup_l _ _ _ _ _ Hrec Hi)
    as (task & _ & _ & _ & r & Hch & Hres).
  destruct (choose_resource_nonempty _ task Hne) as (r' & Hch' & Hin).
  rewrite Hch in Hch'. injection Hch' as <-.
  unfold query_available_resources in Hin. simpl in Hin.
  apply list_elem_of_filter in Hin as [Hav Hin].
  apply list_elem_of_fmap in Hin as (r1 & -> & _).
  case_decide as Hr1; [done|]. congruence.
Qed.

Lemma unavailable_resource_not_assigned_witness :
  ∃ s' allocs s'',
    update_availability 1 false Examples.diamond = (Return false, s')
    ∧ auto_allocate 1 0 s' = (Return allocs, s'')
    ∧ ∀ a, a ∈ allocs → TaskAllocation.resource_id a ≠ 1.
Proof.
  eexists _, _, _.
  split; [vm_compute; reflexivity|]. split; [vm_compute; reflexivity|].
  eapply (unavailable_resource_not_assigned 1 Examples.diamond _ 1 0).
  - vm_compute. reflexivity.
  - vm_compute. reflexivity.
Defined.

(** X18. [create_resource] stores an available resource with an id that no
    resource had: [get_resource] reads it back, it comes last among the
    available resources, and resource ids stay unique. *)
Theorem create_resource_stores_resource resource s :
  ∃ new s',
    create_resource resource s = (new, s')
    ∧ Resource.available new = true
    ∧ (Resource.id new ∉ Resource.id <$> Store.resources s)
    ∧ get_resource (Resource.id new) s' = Return new
    ∧ query_available_resources (Session.open s')
      = query_available_resources (Session.open s) ++ [new]
    ∧ (unique_resource_ids s → unique_resource_ids s').
Proof.
  unfold create_resource. set (new := Resource.mk _ _ _ _).
  assert (∀ r, r ∈ Store.resources s → Resource.id r ≠ Resource.id new)
    as Hfresh.
  { intros r Hr Heq.
    assert (Resource.id r < Resource.id new); [|lia].
    apply next_id_fresh, (list_elem_of_fmap_2 (Some ∘ Resource.id) _ r Hr). }
  exists new, (with_resources (Store.resources s ++ [new]) s).
  split; [done|]. split; [done|]. split.
  { intros (r & Hid & Hr)%list_elem_of_fmap. by apply (Hfresh r). }
  split.
  { unfold get_resource, query_resource. simpl.
    rewrite head_filter_fresh; [done| |done].
    apply Forall_forall. intros r Hr. by apply Hfresh. }
  split.
  { unfold query_available_resources. simpl.
    rewrite filter_app. f_equal. }
  unfold unique_resource_ids. simpl. intros Hnd.
  rewrite fmap_app. apply NoDup_app. split; [done|].
  split; [|apply NoDup_singleton].
  intros i (r & Hi & Hr)%list_elem_of_fmap Hin. simpl in Hin.
  apply list_elem_of_singleton in Hin. apply (Hfresh r Hr).
  rewrite <-Hi, Hin. done.
Qed.

(** ** Consequences for the users of the endpoints *)



(** X20. A dependency that was answered with the cycle error blocks the
    allocation of its project: on the store that the request leaves,
    [auto_allocate] for the project of the predecessor answers with an
    error, the circular dependencies error when the project exists. *)
Theorem rejected_dependency_blocks_allocation dependency s s' :
  create_dependency dependency s
  = (Raise (HTTPException 400 "This dependency creates a cycle"), s') →
  ∃ tp,
    query_task (Session.open s) (predecessor_task_id dependency) = Some tp
    ∧ ∀ utcnow,
        ∃ e, auto_allocate (Task.project_id tp) utcnow s' = (Raise e, s')
             ∧ (is_Some (query_project (Session.open s')
                                       (Task.project_id tp)) →
                e = HTTPException 400
                      "Cannot allocate: project has circular dependencies").
Proof.
  intros Hcreate.
  destruct (query_task (Session.open s) (predecessor_task_id dependency))
    as [tp|] eqn:Hp.
  2:{ unfold create_dependency in Hcreate. by rewrite Hp in Hcreate. }
  destruct (query_task (Session.open s) (successor_task_id dependency))
    as [ts|] eqn:Hs.
  2:{ unfold create_dependency in Hcreate. by rewrite Hp, Hs in Hcreate. }
  destruct (decide (Task.project_id tp = Task.project_id ts)) as [Heq|Hne].
  2:{ unfold create_dependency in Hcreate.
      by rewrite Hp, Hs, decide_True in Hcreate. }
  rewrite (create_dependency_checked dependency s tp ts Hp Hs Heq)
    in Hcreate.
  destruct (has_cycle_spec
              (Session.open
                 (with_dependency (stored_dependency dependency s) s))
              (Task.project_id tp)) as (found & Hfound & Hiff).
  rewrite Hfound in Hcreate. destruct found; [|by injection Hcreate].
  injection Hcreate as <-.
  exists tp. split; [done|]. intros utcnow.
  apply auto_allocate_cyclic. by apply Hiff.
Qed.

Lemma rejected_dependency_blocks_allocation_witness :
  ∃ tp,
    query_task (Session.open Examples.chain)
               (predecessor_task_id Examples.back_edge) = Some tp
    ∧ ∀ utcnow,
        ∃ e, auto_allocate (Task.project_id tp) utcnow Examples.loop
             = (Raise e, Examples.loop)
             ∧ (is_Some (query_project (Session.open Examples.loop)
                                       (Task.project_id tp)) →
                e = HTTPException 400
                      "Cannot allocate: project has circular dependencies").
Proof.
  apply (rejected_dependency_blocks_allocation Examples.back_edge
           Examples.chain Examples.loop).
  vm_compute. reflexivity.
Defined.



